(** * Vacuum-world planner: a shallow embedding of [planner.py]

    The planner reads a grid world from a text file and searches the space of
    (agent position, remaining dirt) states, depth first or by uniform cost.
    This development embeds the parser, the successor generator, the two
    search loops and the command line driver, and proves the properties the
    specification states about them. *)

From Stdlib Require Import ZArith Lia.
From stdpp Require Import gmap strings list fin_maps pretty.

Open Scope Z_scope.
#[local] Set Warnings "-clear-no-such-hyp".

(** ** Exceptions and results

    Python exceptions that the planner can raise are values of [exn]; a
    computation that may raise returns a [result]. *)

Inductive exn : Set :=
  | ValueError | TypeError | IndexError | KeyError | UnicodeDecodeError | OSError.

Inductive result (A : Type) : Type :=
  | Ok (a : A)
  | Raise (e : exn).
Arguments Ok {A} a.
Arguments Raise {A} e.

Global Instance result_ret : MRet result := fun A a => Ok a.
Global Instance result_bind : MBind result := fun A B k m =>
  match m with
  | Ok a => k a
  | Raise e => Raise e
  end.

(** ** Data model *)

(** A position is a pair [(row, col)] of Python integers. *)
Abbreviation Pos := (Z * Z)%type.

(** Action labels: the keys of [MOVES] and the vacuum action ['V']. *)
Inductive Action : Set := North | South | East | West | Vacuum.

Global Instance Action_eq_dec : EqDecision Action.
Proof. solve_decision. Defined.

Definition label (a : Action) : string :=
  match a with
  | North => "N" | South => "S" | East => "E" | West => "W" | Vacuum => "V"
  end.

(** [MOVES] is a dict literal; iteration follows insertion order. *)
Definition MOVES : list (Action * (Z * Z)) :=
  [ (North, (-1, 0)); (South, (1, 0)); (East, (0, 1)); (West, (0, -1)) ].

(** [class State]: the position is a tuple, or [None] when the world file has
    no agent marker; [dirty] is a frozenset.  [__eq__] compares both fields,
    which on this representation is Leibniz equality. *)
Record State : Type := mkState {
  position : option Pos;
  dirty : gset Pos
}.

Global Instance State_eq_dec : EqDecision State.
Proof. solve_decision. Defined.

Global Instance State_countable : Countable State.
Proof.
  refine (inj_countable' (fun s => (position s, dirty s))
                         (fun p => mkState p.1 p.2) _).
  by intros [].
Defined.

(** Characters are Unicode code points; a grid is a list of rows. *)
Abbreviation char := N.
Abbreviation text := (list N).
Abbreviation Grid := (list (list N)).

Definition ch_hash : char := 35%N.   (* '#' *)
Definition ch_star : char := 42%N.   (* '*' *)
Definition ch_at : char := 64%N.     (* '@' *)
Definition ch_under : char := 95%N.  (* '_' *)

(** ** Successor generator *)

(** [len(grid[0])]. *)
Definition len_row0 (grid : Grid) : result Z :=
  match grid with
  | [] => Raise IndexError
  | row :: _ => Ok (Z.of_nat (length row))
  end.

(** [grid[nr][nc]] for indices already known to be non-negative. *)
Definition cell (grid : Grid) (nr nc : Z) : result char :=
  match grid !! Z.to_nat nr with
  | None => Raise IndexError
  | Some row =>
      match row !! Z.to_nat nc with
      | None => Raise IndexError
      | Some ch => Ok ch
      end
  end.

(** One turn of the loop over [MOVES.items()]: the successor appended for
    this direction, if any. *)
Definition try_move (grid : Grid) (r c : Z) (d : gset Pos)
    (m : Action * (Z * Z)) : result (list (Action * State)) :=
  let '(action, (dr, dc)) := m in
  let nr := r + dr in
  let nc := c + dc in
  if (0 <=? nr) && (nr <? Z.of_nat (length grid)) then
    if 0 <=? nc then
      w ← len_row0 grid;
      if nc <? w then
        ch ← cell grid nr nc;
        if bool_decide (ch ≠ ch_hash)
        then Ok [(action, mkState (Some (nr, nc)) d)]
        else Ok []
      else Ok []
    else Ok []
  else Ok [].

Fixpoint move_loop (grid : Grid) (r c : Z) (d : gset Pos)
    (moves : list (Action * (Z * Z))) (neighbors : list (Action * State))
    : result (list (Action * State)) :=
  match moves with
  | [] => Ok neighbors
  | m :: rest =>
      new ← try_move grid r c d m;
      move_loop grid r c d rest (neighbors ++ new)
  end.

Definition get_neighbors (state : State) (grid : Grid)
    : result (list (Action * State)) :=
  match position state with
  | None => Raise TypeError           (* r, c = None *)
  | Some (r, c) =>
      neighbors ← move_loop grid r c (dirty state) MOVES [];
      if bool_decide ((r, c) ∈ dirty state)
      then Ok (neighbors ++
                 [(Vacuum, mkState (Some (r, c)) (dirty state ∖ {[ (r, c) ]}))])
      else Ok neighbors
  end.

(** ** Search outcomes and what they print

    Both searches print only when they pop a goal: the action labels, one per
    line, then the two counter lines.  When the loop ends with an empty
    frontier the function returns without printing.  [OutOfFuel] is the model's
    own outcome for a loop still running when the fuel is spent. *)

Inductive search_result : Type :=
  | Solved (path : list Action) (nodes_generated nodes_expanded : nat)
  | Exhausted
  | Raised (e : exn)
  | OutOfFuel.

Definition printed (res : search_result) : list string :=
  match res with
  | Solved path g e =>
      map label path ++
      [ (pretty g ++ " nodes generated")%string;
        (pretty e ++ " nodes expanded")%string ]
  | _ => []
  end.

(** ** Depth-first search *)

(** The [for] loop over [reversed(get_neighbors(...))]: the stack is a list
    whose head is the top ([stack.append] conses, [stack.pop()] takes the
    head).  [visited] does not change inside this loop. *)
Fixpoint dfs_push (nbrs : list (Action * State)) (visited : gset State)
    (path : list Action) (stack : list (State * list Action))
    (nodes_generated : nat) : list (State * list Action) * nat :=
  match nbrs with
  | [] => (stack, nodes_generated)
  | (action, neighbor) :: rest =>
      if decide (neighbor ∈ visited)
      then dfs_push rest visited path stack nodes_generated
      else dfs_push rest visited path
             ((neighbor, path ++ [action]) :: stack) (S nodes_generated)
  end.

Fixpoint dfs_loop (fuel : nat) (grid : Grid)
    (stack : list (State * list Action)) (visited : gset State)
    (nodes_generated nodes_expanded : nat) : search_result :=
  match stack with
  | [] => Exhausted
  | (current_state, path) :: stack =>
      match fuel with
      | O => OutOfFuel
      | S fuel =>
          if decide (current_state ∈ visited)
          then dfs_loop fuel grid stack visited nodes_generated nodes_expanded
          else
            let visited := {[ current_state ]} ∪ visited in
            let nodes_expanded := S nodes_expanded in
            if decide (dirty current_state = ∅)
            then Solved path nodes_generated nodes_expanded
            else
              match get_neighbors current_state grid with
              | Raise e => Raised e
              | Ok nbrs =>
                  let '(stack, nodes_generated) :=
                    dfs_push (rev nbrs) visited path stack nodes_generated in
                  dfs_loop fuel grid stack visited
                    nodes_generated nodes_expanded
              end
      end
  end.

Definition dfs (fuel : nat) (start_state : State) (grid : Grid)
    : search_result :=
  dfs_loop fuel grid [(start_state, [])] ∅ 0%nat 0%nat.

(** ** Uniform-cost search *)

(** A frontier entry is the tuple [(cost, id(state), state)]. *)
Abbreviation entry := (nat * Z * State)%type.

(** Tuple comparison on the first two components. *)
Definition entry_lt (a b : entry) : bool :=
  let '(ca, ia, _) := a in
  let '(cb, ib, _) := b in
  (ca <? cb)%nat || ((ca =? cb)%nat && (ia <? ib)).

(** [heapq.heappush] and [heapq.heappop], as a priority queue: the frontier
    is kept as the list of its entries in the order they were pushed, and a
    pop removes the least entry.  Entries on the heap at the same time are
    distinct live objects, so in CPython their [id]s differ and the least
    entry is unique; should two entries agree on cost and id, the model takes
    the one pushed first. *)
Definition heappush (heap : list entry) (e : entry) : list entry :=
  heap ++ [e].

Fixpoint heappop (heap : list entry) : option (entry * list entry) :=
  match heap with
  | [] => None
  | e :: rest =>
      match heappop rest with
      | None => Some (e, [])
      | Some (m, rest') =>
          if entry_lt m e then Some (m, e :: rest') else Some (e, rest)
      end
  end.

(** [reconstruct_path]: the [while] loop walking predecessor links.  A value
    of [came_from] is the tuple [(action, prev)], [(None, None)] for the
    start state. *)
Fixpoint reconstruct_loop (fuel : nat)
    (came_from : gmap State (option Action * option State))
    (end_state : option State) (path : list Action)
    : option (result (list Action)) :=
  match fuel with
  | O => None
  | S fuel =>
      match end_state ≫= (came_from !!.) with
      | None => Some (Raise KeyError)
      | Some (None, _) => Some (Ok (rev path))
      | Some (Some action, prev) =>
          reconstruct_loop fuel came_from prev (path ++ [action])
      end
  end.

Definition reconstruct_path (fuel : nat)
    (came_from : gmap State (option Action * option State))
    (end_state : State) : option (result (list Action)) :=
  reconstruct_loop fuel came_from (Some end_state) [].

(** The state of the [while heap] loop in [ucs].  [next_obj] counts the
    [State] objects created so far: the start state is object 0 and every
    successor returned by [get_neighbors] is a new object. *)
Record ucs_state : Type := mkUcs {
  heap : list entry;
  came_from : gmap State (option Action * option State);
  cost_so_far : gmap State nat;
  nodes_generated : nat;
  next_obj : nat
}.

(** The test [neighbor not in cost_so_far or new_cost < cost_so_far[neighbor]]. *)
Definition improves (cost_so_far : gmap State nat) (neighbor : State)
    (new_cost : nat) : bool :=
  match cost_so_far !! neighbor with
  | None => true
  | Some old => (new_cost <? old)%nat
  end.

Section Ucs.

(** [ident k] is what [id] returns for the [k]-th [State] object created:
    its address, chosen by the interpreter. *)
Variable ident : nat → Z.

(** The [for] loop over the successors of the popped state. *)
Fixpoint ucs_relax (nbrs : list (Action * State)) (cost : nat)
    (current_state : State) (st : ucs_state) : ucs_state :=
  match nbrs with
  | [] => st
  | (action, neighbor) :: rest =>
      let new_cost := S cost in
      let obj := next_obj st in
      let st' :=
        if improves (cost_so_far st) neighbor new_cost
        then mkUcs (heappush (heap st) (new_cost, ident obj, neighbor))
                   (<[neighbor := (Some action, Some current_state)]>
                      (came_from st))
                   (<[neighbor := new_cost]> (cost_so_far st))
                   (S (nodes_generated st))
                   (S obj)
        else mkUcs (heap st) (came_from st) (cost_so_far st)
                   (nodes_generated st) (S obj)
      in
      ucs_relax rest cost current_state st'
  end.

(** [fuel0] bounds the walk of [reconstruct_path], [fuel] the pops. *)
Fixpoint ucs_loop (fuel0 fuel : nat) (grid : Grid) (st : ucs_state)
    (nodes_expanded : nat) : search_result :=
  match heappop (heap st) with
  | None => Exhausted
  | Some ((cost, _, current_state), heap') =>
      match fuel with
      | O => OutOfFuel
      | S fuel =>
          let nodes_expanded := S nodes_expanded in
          if decide (dirty current_state = ∅)
          then
            match reconstruct_path fuel0 (came_from st) current_state with
            | None => OutOfFuel
            | Some (Raise e) => Raised e
            | Some (Ok path) =>
                Solved path (nodes_generated st) nodes_expanded
            end
          else
            match get_neighbors current_state grid with
            | Raise e => Raised e
            | Ok nbrs =>
                let st' :=
                  ucs_relax nbrs cost current_state
                    (mkUcs heap' (came_from st) (cost_so_far st)
                           (nodes_generated st) (next_obj st)) in
                ucs_loop fuel0 fuel grid st' nodes_expanded
            end
      end
  end.

Definition ucs (fuel : nat) (start_state : State) (grid : Grid)
    : search_result :=
  ucs_loop fuel fuel grid
    (mkUcs [(0%nat, ident 0, start_state)]
           {[ start_state := (None, None) ]}
           {[ start_state := 0%nat ]}
           0%nat 1%nat)
    0%nat.

End Ucs.

(** ** Reading the world file

    [codecs.open(path, 'r', encoding='utf-8-sig')] gives a reader of decoded
    text.  Opening and decoding are the codec's work, not this program's,
    and the reader decodes as it goes: whether bytes that are not UTF-8
    make a read fail depends on where they lie in the file, and bytes past
    the last line read are never looked at.  The model takes the outcome of
    the reader as its input and says nothing about which bytes lead to it:
    [Ok raw] is a run in which the reads deliver the lines of [raw], code
    points with a byte-order mark showing as U+FEFF; [Raise e] is a run in
    which opening the file or a read raises [e] before the parser fails by
    itself.  [utf_8_sig] is what the [-sig] codec adds: it drops one leading
    byte-order mark. *)

Definition ch_bom : char := 65279%N.

Definition utf_8_sig (raw : text) : text :=
  match raw with
  | c :: rest => if (c =? ch_bom)%N then rest else raw
  | [] => []
  end.

(** Characters for which [str.isspace] holds. *)
Definition is_space (c : char) : bool :=
  ((9 <=? c) && (c <=? 13) || (28 <=? c) && (c <=? 32)
   || (c =? 133) || (c =? 160) || (c =? 5760)
   || (8192 <=? c) && (c <=? 8202) || (c =? 8232) || (c =? 8233)
   || (c =? 8239) || (c =? 8287) || (c =? 12288))%N.

(** Characters at which [str.splitlines], and with it the reader's
    [readline], ends a line. *)
Definition is_linebreak (c : char) : bool :=
  ((10 <=? c) && (c <=? 13) || (28 <=? c) && (c <=? 30)
   || (c =? 133) || (c =? 8232) || (c =? 8233))%N.

(** [f.readline()]: the next line with its terminator, and the rest of the
    stream; the empty line at the end of the file. *)
Fixpoint readline (f : text) : text * text :=
  match f with
  | [] => ([], [])
  | c :: rest =>
      if (c =? 13)%N then
        match rest with
        | c' :: rest' =>
            if (c' =? 10)%N then ([c; c'], rest') else ([c], rest)
        | [] => ([c], [])
        end
      else if is_linebreak c then ([c], rest)
      else let '(line, f') := readline rest in (c :: line, f')
  end.

Fixpoint lstrip (s : text) : text :=
  match s with
  | c :: rest => if is_space c then lstrip rest else s
  | [] => []
  end.

(** [str.strip()]. *)
Definition strip (s : text) : text := rev (lstrip (rev (lstrip s))).

(** The code points of digit zero of every run of ten decimal digits
    (Unicode 14, general category Nd). *)
Definition decimal_zeros : list N :=
  [ 48; 1632; 1776; 1984; 2406; 2534; 2662; 2790; 2918; 3046; 3174; 3302;
    3430; 3558; 3664; 3792; 3872; 4160; 4240; 6112; 6160; 6470; 6608; 6784;
    6800; 6992; 7088; 7232; 7248; 42528; 43216; 43264; 43472; 43504; 43600;
    44016; 65296; 66720; 68912; 69734; 69872; 69942; 70096; 70384; 70736;
    70864; 71248; 71360; 71472; 71904; 72016; 72784; 73040; 73120; 92768;
    92864; 93008; 120782; 120792; 120802; 120812; 120822; 123200; 123632;
    125264; 130032 ]%N.

Definition to_decimal (c : char) : option N :=
  (fun z => c - z)%N <$>
    find (fun z => (z <=? c) && (c <? z + 10))%N decimal_zeros.

(** [int(s)] on a string reads a base-10 literal: other spaces and decimal
    digits are first replaced by their ASCII counterparts, then the literal
    is white space, an optional sign, digits with single underscores between
    them, white space.  A literal of more digits than the interpreter's
    limit, 4300 unless the interpreter is told otherwise, is refused. *)
Definition int_max_str_digits : nat := 4300.

Definition int_normalise (c : char) : char :=
  if (c <? 127)%N then c
  else if is_space c then 32%N
  else match to_decimal c with
       | Some d => (48 + d)%N
       | None => 63%N
       end.

Definition is_c_space (c : char) : bool :=
  ((9 <=? c) && (c <=? 13) || (c =? 32))%N.

Fixpoint skip_c_space (s : text) : text :=
  match s with
  | c :: rest => if is_c_space c then skip_c_space rest else s
  | [] => []
  end.

Fixpoint int_scan (s : text) (acc : Z) (digits : nat) (prev_underscore : bool)
    : option (Z * nat * text) :=
  match s with
  | [] => if prev_underscore then None else Some (acc, digits, [])
  | c :: rest =>
      if (c =? 95)%N then
        if prev_underscore then None else int_scan rest acc digits true
      else if (48 <=? c)%N && (c <=? 57)%N then
        int_scan rest (10 * acc + (Z.of_N c - 48)) (S digits) false
      else if prev_underscore then None else Some (acc, digits, s)
  end.

Definition int_of_text (s : text) : result Z :=
  let s := skip_c_space (map int_normalise s) in
  let '(sign, s) :=
    match s with
    | c :: rest =>
        if (c =? 43)%N then (1, rest)
        else if (c =? 45)%N then (-1, rest)
        else (1, s)
    | [] => (1, s)
    end in
  match s with
  | c :: _ => if (c =? 95)%N then Raise ValueError else
      match int_scan s 0 0 false with
      | Some (v, S n, rest) =>
          if (int_max_str_digits <? S n)%nat then Raise ValueError else
          match skip_c_space rest with
          | [] => Ok (sign * v)
          | _ :: _ => Raise ValueError
          end
      | _ => Raise ValueError
      end
  | [] => Raise ValueError
  end.

(** The loop [for c, ch in enumerate(line)]. *)
Fixpoint scan_line (r c : Z) (line : text) (row : list char)
    (start : option Pos) (dirty : gset Pos)
    : list char * option Pos * gset Pos :=
  match line with
  | [] => (row, start, dirty)
  | ch :: line =>
      if (ch =? ch_at)%N then
        scan_line r (c + 1) line (row ++ [ch_under]) (Some (r, c)) dirty
      else if (ch =? ch_star)%N then
        scan_line r (c + 1) line (row ++ [ch_star]) start ({[ (r, c) ]} ∪ dirty)
      else
        scan_line r (c + 1) line (row ++ [ch]) start dirty
  end.

(** The loop [for r in range(rows)], with [n] rows still to read. *)
Fixpoint parse_rows (n : nat) (r : Z) (f : text) (grid : Grid)
    (start : option Pos) (dirty : gset Pos)
    : Grid * option Pos * gset Pos :=
  match n with
  | O => (grid, start, dirty)
  | S n =>
      let '(line, f) := readline f in
      let line := strip line in
      let '(row, start, dirty) := scan_line r 0 line [] start dirty in
      parse_rows n (r + 1) f (grid ++ [row]) start dirty
  end.

Definition parse_world (file : result text)
    : result (Grid * option Pos * gset Pos) :=
  raw ← file;
  let f := utf_8_sig raw in
  let '(line, f) := readline f in
  cols ← int_of_text line;
  let '(line, f) := readline f in
  rows ← int_of_text line;
  Ok (parse_rows (Z.to_nat rows) 0 f [] None ∅).

(** ** The command line driver

    A run of the process: the lines written to standard output and the exit
    status.  An exception that reaches the top level ends the process with
    status 1; its traceback goes to standard error. *)

Definition usage : string :=
  "Usage: python3 planner.py [uniform-cost|depth-first] [world-file]".

Definition finish (res : search_result) : option (list string * Z) :=
  match res with
  | OutOfFuel => None
  | Raised _ => Some ([], 1)
  | _ => Some (printed res, 0)
  end.

(** [fs] is the file system as the reader sees it; [argv] is [sys.argv]. *)
Definition main (fuel : nat) (ident : nat → Z) (fs : string → result text)
    (argv : list string) : option (list string * Z) :=
  match argv with
  | [_; algorithm; file_path] =>
      match parse_world (fs file_path) with
      | Raise _ => Some ([], 1)
      | Ok (grid, start_pos, dirty) =>
          let start_state := mkState start_pos dirty in
          if decide (algorithm = "depth-first") then
            finish (dfs fuel start_state grid)
          else if decide (algorithm = "uniform-cost") then
            finish (ucs ident fuel start_state grid)
          else Some ([("Unknown algorithm: " ++ algorithm)%string], 1)
      end
  | _ => Some ([usage], 1)
  end.

(** ASCII text as code points, for writing world files down. *)
Definition text_of_string (s : string) : text :=
  map Ascii.N_of_ascii (String.list_ascii_of_string s).

Definition nl : char := 10%N.

(** ** Specification vocabulary *)

(** A cell a move may enter: inside the grid rows, inside the width of the
    first row (the bound the generator tests), present in its own row, and
    not a wall. *)
Definition legal_target (grid : Grid) (nr nc : Z) : Prop :=
  0 ≤ nr < Z.of_nat (length grid) ∧
  (∃ row0, head grid = Some row0 ∧ 0 ≤ nc < Z.of_nat (length row0)) ∧
  ∃ row ch, grid !! Z.to_nat nr = Some row ∧ row !! Z.to_nat nc = Some ch ∧
            ch ≠ ch_hash.

(** Carrying out an action sequence: an action applies in a state when the
    successor generator offers it there. *)
Fixpoint lookup_action (a : Action) (nbrs : list (Action * State))
    : option State :=
  match nbrs with
  | [] => None
  | (a', s') :: rest => if decide (a = a') then Some s' else lookup_action a rest
  end.

Definition apply_action (grid : Grid) (s : State) (a : Action) : option State :=
  match get_neighbors s grid with
  | Ok nbrs => lookup_action a nbrs
  | Raise _ => None
  end.

Fixpoint execute (grid : Grid) (s : State) (acts : list Action) : option State :=
  match acts with
  | [] => Some s
  | a :: rest =>
      match apply_action grid s a with
      | Some s' => execute grid s' rest
      | None => None
      end
  end.

Definition clears_all_dirt (grid : Grid) (s : State) (acts : list Action) : Prop :=
  ∃ s', execute grid s acts = Some s' ∧ dirty s' = ∅.

(** A world's grid is rectangular: every row is as long as the first. *)
Definition rectangular (grid : Grid) : Prop :=
  ∀ row0 row, head grid = Some row0 → row ∈ grid → length row = length row0.

(** The grid of the one-row example world ["@*#"], the state with the agent
    on its dirty cell, and that state's successors. *)
Definition grid_1x3 : Grid := [[ch_under; ch_star; ch_hash]].
Definition start_1x3 : State := mkState (Some (0, 0)) {[ (0, 1) ]}.
Definition on_dirt_1x3 : State := mkState (Some (0, 1)) {[ (0, 1) ]}.

(** The example world file: [3], [1], [@*#], one per line. *)
Definition file_1x3 : text :=
  text_of_string "3" ++ [nl] ++ text_of_string "1" ++ [nl] ++
  text_of_string "@*#" ++ [nl].

(** The parts of a world file: the two header fields and the text after
    the header lines. *)
Definition declared_cols (raw : text) : result Z :=
  int_of_text (readline (utf_8_sig raw)).1.

Definition declared_rows (raw : text) : result Z :=
  int_of_text (readline (readline (utf_8_sig raw)).2).1.

Definition world_body (raw : text) : text :=
  (readline (readline (utf_8_sig raw)).2).2.

(** The next [n] lines of a stream, stripped; lines past the end of the file
    are empty. *)
Fixpoint body_lines (n : nat) (f : text) : list text :=
  match n with
  | O => []
  | S n => strip (readline f).1 :: body_lines n (readline f).2
  end.

(** How a character of the file shows in the grid. *)
Definition render (ch : char) : char :=
  if (ch =? ch_at)%N then ch_under else ch.

(** The positions of a given character in reading order: along a line from
    column [c], and over the lines from row [r]. *)
Fixpoint marks_in_line (mark : char) (r c : Z) (line : text) : list Pos :=
  match line with
  | [] => []
  | ch :: rest =>
      (if (ch =? mark)%N then [(r, c)] else []) ++
      marks_in_line mark r (c + 1) rest
  end.

Fixpoint marks (mark : char) (r : Z) (lines : list text) : list Pos :=
  match lines with
  | [] => []
  | line :: rest => marks_in_line mark r 0 line ++ marks mark (r + 1) rest
  end.

(** Two world files whose grid does not match the header: one declares five
    columns and holds a grid line of two characters; the other declares two
    rows and holds one. *)
Definition file_short_line : text :=
  text_of_string "5" ++ [nl] ++ text_of_string "1" ++ [nl] ++
  text_of_string "@*" ++ [nl].

Definition file_missing_row : text :=
  text_of_string "1" ++ [nl] ++ text_of_string "2" ++ [nl] ++
  text_of_string "@" ++ [nl].

(** A world file whose dirt lies behind a wall. *)
Definition file_walled : text :=
  text_of_string "3" ++ [nl] ++ text_of_string "1" ++ [nl] ++
  text_of_string "@#*" ++ [nl].

(** ** The search graph

    [edge grid s a s']: the successor generator offers action [a] in state
    [s], leading to [s'].  [reach grid start n s]: [n] such steps lead from
    [start] to [s]. *)
Definition edge (grid : Grid) (s : State) (a : Action) (s' : State) : Prop :=
  ∃ nbrs, get_neighbors s grid = Ok nbrs ∧ (a, s') ∈ nbrs.

Inductive reach (grid : Grid) (start : State) : nat → State → Prop :=
  | reach_start : reach grid start 0 start
  | reach_step n s a s' :
      reach grid start n s → edge grid s a s' → reach grid start (S n) s'.

(** A state all of whose successors have a recorded cost, and which is not
    a goal: what the uniform-cost loop leaves behind after a pop. *)
Definition expanded (grid : Grid) (cost_so_far : gmap State nat) (s : State)
    : Prop :=
  dirty s ≠ ∅ ∧
  ∃ nbrs, get_neighbors s grid = Ok nbrs ∧
          ∀ a s', (a, s') ∈ nbrs → is_Some (cost_so_far !! s').

(** What holds of the maps of [ucs] throughout: recorded costs are exact
    distances, and every state but the start records the last step of a
    shortest path to it. *)
Record maps_ok (grid : Grid) (start : State) (st : ucs_state) : Prop := {
  ok_start : cost_so_far st !! start = Some 0%nat;
  ok_start_from : came_from st !! start = Some (None, None);
  ok_reach : ∀ s c, cost_so_far st !! s = Some c → reach grid start c s;
  ok_least : ∀ s c n, cost_so_far st !! s = Some c →
                      reach grid start n s → (c ≤ n)%nat;
  ok_heap : ∀ c i s, (c, i, s) ∈ heap st → cost_so_far st !! s = Some c;
  ok_from : ∀ s c, cost_so_far st !! s = Some (S c) →
      ∃ a p, came_from st !! s = Some (Some a, Some p) ∧
             cost_so_far st !! p = Some c ∧ edge grid p a s
}.

(** The invariant of the [while heap] loop, before a pop: every recorded
    state is on the frontier or expanded, and no cost exceeds the number of
    pops made. *)
Record ucs_inv (grid : Grid) (start : State) (nodes_expanded : nat)
    (st : ucs_state) : Prop := {
  inv_maps : maps_ok grid start st;
  inv_pending : ∀ s, is_Some (cost_so_far st !! s) →
      (∃ c i, (c, i, s) ∈ heap st) ∨ expanded grid (cost_so_far st) s;
  inv_bound : ∀ s c, cost_so_far st !! s = Some c → (c ≤ nodes_expanded)%nat
}.

(** The invariant of the [for] loop over the successors of the popped state
    [cur], popped at cost [c]; [seen] are the successors already handled. *)
Record relax_inv (grid : Grid) (start : State) (nodes_expanded : nat)
    (cur : State) (c : nat) (seen : list (Action * State))
    (st : ucs_state) : Prop := {
  rel_maps : maps_ok grid start st;
  rel_cur : cost_so_far st !! cur = Some c;
  rel_cur_dirty : dirty cur ≠ ∅;
  rel_cur_bound : (c < nodes_expanded)%nat;
  rel_min : ∀ c' i s, (c', i, s) ∈ heap st → (c ≤ c')%nat;
  rel_pending : ∀ s, is_Some (cost_so_far st !! s) →
      s = cur ∨ (∃ c' i, (c', i, s) ∈ heap st) ∨
      expanded grid (cost_so_far st) s;
  rel_seen : ∀ a s', (a, s') ∈ seen → is_Some (cost_so_far st !! s');
  rel_bound : ∀ s k, cost_so_far st !! s = Some k → (k ≤ nodes_expanded)%nat
}.

(** ** The state space of a world

    Every state a search can meet keeps the agent on the start position or
    on a cell within the bounds the generator tests, and has a dirty set
    included in the initial one: they all lie in the finite set
    [universe]. *)
Definition width (grid : Grid) : nat :=
  match grid with
  | [] => 0%nat
  | row0 :: _ => length row0
  end.

Definition cells (grid : Grid) : list Pos :=
  r ← seqZ 0 (Z.of_nat (length grid));
  c ← seqZ 0 (Z.of_nat (width grid));
  [(r, c)].

Fixpoint subsets (l : list Pos) : list (gset Pos) :=
  match l with
  | [] => [∅]
  | x :: l => subsets l ++ map (fun d => {[ x ]} ∪ d) (subsets l)
  end.

Definition universe (grid : Grid) (start : State) : gset State :=
  list_to_set
    (p ← position start :: map Some (cells grid);
     d ← subsets (elements (dirty start));
     [mkState p d]).

(** The quantity that each pop of the uniform-cost loop decreases: entries
    on the frontier plus states without a recorded cost. *)
Definition ucs_measure (grid : Grid) (start : State) (st : ucs_state) : nat :=
  (length (heap st) +
   (size (universe grid start) - size (cost_so_far st)))%nat.

(** The same for depth-first search: stack entries, and five for each state
    not yet visited, one for each successor it may push. *)
Definition dfs_measure (grid : Grid) (start : State)
    (stack : list (State * list Action)) (visited : gset State) : nat :=
  (length stack + 5 * (size (universe grid start) - size visited))%nat.

(** Pops after which both searches have ended. *)
Definition enough_fuel (grid : Grid) (start : State) : nat :=
  (5 * size (universe grid start) + 2)%nat.

(** A search that ended the way the loops are written to end: on a popped
    goal or on an empty frontier. *)
Definition ended (res : search_result) : Prop :=
  res = Exhausted ∨ ∃ path generated expanded, res = Solved path generated expanded.

(** Two assignments of identities that order the [State] objects alike. *)
Definition same_order (ident1 ident2 : nat → Z) : Prop :=
  ∀ i j, ident1 i < ident1 j ↔ ident2 i < ident2 j.

(** Frontier entries of two runs that hold the same object. *)
Definition same_entry (ident1 ident2 : nat → Z) (e1 e2 : entry) : Prop :=
  e1.1.1 = e2.1.1 ∧ e1.2 = e2.2 ∧
  ∃ k, e1.1.2 = ident1 k ∧ e2.1.2 = ident2 k.

Definition same_ucs_state (ident1 ident2 : nat → Z) (st1 st2 : ucs_state)
    : Prop :=
  Forall2 (same_entry ident1 ident2) (heap st1) (heap st2) ∧
  came_from st1 = came_from st2 ∧
  cost_so_far st1 = cost_so_far st2 ∧
  nodes_generated st1 = nodes_generated st2 ∧
  next_obj st1 = next_obj st2.

(** A 2 x 2 world with the dirt diagonally opposite the agent, and
    identities that decrease as objects are created. *)
Definition grid_2x2 : Grid := [[ch_under; 46%N]; [46%N; ch_star]].
Definition start_2x2 : State := mkState (Some (0, 0)) {[ (1, 1) ]}.
Definition descending (k : nat) : Z := - Z.of_nat k.


(** ** Vocabulary for the further properties *)

(** The invariant of the [while stack] loop of [dfs]: every stack entry
    carries a path that leads from the start to its state; every visited
    state is not a goal and has each successor visited or on the stack; the
    counters count what they say. *)
Record dfs_inv (grid : Grid) (start : State)
    (stack : list (State * list Action)) (visited : gset State)
    (nodes_generated nodes_expanded : nat) : Prop := {
  dinv_paths : ∀ s p, (s, p) ∈ stack →
      execute grid start p = Some s ∧
      (length p ≤ nodes_generated)%nat ∧ (length p ≤ nodes_expanded)%nat;
  dinv_visited : ∀ v, v ∈ visited →
      dirty v ≠ ∅ ∧
      ∃ nbrs, get_neighbors v grid = Ok nbrs ∧
              ∀ a s', (a, s') ∈ nbrs → s' ∈ visited ∨ ∃ p, (s', p) ∈ stack;
  dinv_start : start ∈ visited ∨ ∃ p, (start, p) ∈ stack;
  dinv_exp : nodes_expanded = size visited;
  dinv_gen : (nodes_generated ≤ 5 * nodes_expanded)%nat;
  dinv_universe : visited ⊆ universe grid start
}.

(** The counters of [ucs] before a pop: every recorded state but the start
    was generated once, and every pushed entry is popped or pending. *)
Record ucs_counts (nodes_expanded : nat) (st : ucs_state) : Prop := {
  cnt_recorded : size (cost_so_far st) = S (nodes_generated st);
  cnt_pending : (nodes_expanded + length (heap st))%nat = S (nodes_generated st)
}.

(** A bound on the number of states of a world: the agent on a cell or on
    its start position, with any part of the initial dirt left. *)
Definition state_bound (grid : Grid) (start : State) : nat :=
  ((length grid * width grid + 1) * 2 ^ size (dirty start))%nat.

(** [chain came_from s acts]: the predecessor links of [came_from] lead from
    [s] back to an entry without action, and [acts] are the actions met, in
    the order from that entry to [s]. *)
Inductive chain (came_from : gmap State (option Action * option State))
    : State → list Action → Prop :=
  | chain_root s prev :
      came_from !! s = Some (None, prev) → chain came_from s []
  | chain_link s a p acts :
      came_from !! s = Some (Some a, Some p) →
      chain came_from p acts → chain came_from s (acts ++ [a]).

(** A cell that passes the bounds tests of the successor generator and lies
    past the end of its own row. *)
Definition short_row (grid : Grid) (nr nc : Z) : Prop :=
  0 ≤ nr < Z.of_nat (length grid) ∧
  ∃ row0 row, head grid = Some row0 ∧ 0 ≤ nc < Z.of_nat (length row0) ∧
              grid !! Z.to_nat nr = Some row ∧
              Z.of_nat (length row) ≤ nc.

(** The number of Vacuum actions of an action sequence. *)
Definition vacuums (acts : list Action) : nat :=
  length (filter (fun a => a = Vacuum) acts).

(** The lines a solved search prints. *)
Definition report (path : list Action) (generated expanded : nat)
    : list string :=
  map label path ++
  [ (pretty generated ++ " nodes generated")%string;
    (pretty expanded ++ " nodes expanded")%string ].

(** A 2 x 2 world with the dirt next to the agent, on which depth-first
    search goes the long way round. *)
Definition grid_detour : Grid := [[ch_under; ch_star]; [46%N; 46%N]].
Definition start_detour : State := mkState (Some (0, 0)) {[ (0, 1) ]}.

(** The goal state of the one-row example world. *)
Definition clean_1x3 : State := mkState (Some (0, 1)) ∅.

(** A grid whose second row is shorter than the first. *)
Definition grid_ragged : Grid := [[ch_under; 46%N]; [46%N]].

(** World files for the agent marker: one with neither agent nor dirt, one
    with two agents around a dirty cell, and one with dirt and no agent. *)
Definition file_no_agent : text :=
  text_of_string "1" ++ [nl] ++ text_of_string "1" ++ [nl] ++
  text_of_string "_" ++ [nl].

Definition file_two_agents : text :=
  text_of_string "3" ++ [nl] ++ text_of_string "1" ++ [nl] ++
  text_of_string "@*@" ++ [nl].

Definition file_dirt_only : text :=
  text_of_string "1" ++ [nl] ++ text_of_string "1" ++ [nl] ++
  text_of_string "*" ++ [nl].

(** [marked lines mark p]: the character at row [p.1], column [p.2] of the
    grid lines is [mark].  [reading_le p q]: [p] comes no later than [q] in
    reading order, rows first and columns within a row. *)
Definition marked (lines : list text) (mark : char) (p : Pos) : Prop :=
  0 ≤ p.1 ∧ 0 ≤ p.2 ∧
  ∃ line, lines !! Z.to_nat p.1 = Some line ∧
          line !! Z.to_nat p.2 = Some mark.

Definition reading_le (p q : Pos) : Prop :=
  p.1 < q.1 ∨ (p.1 = q.1 ∧ p.2 ≤ q.2).

(** [walk came_from n x y]: following [n] predecessor links of [came_from]
    from [x] leads to [y]; the loop of [reconstruct_path] follows a link
    from every entry that holds an action, whatever the predecessor it
    names.  [no_entry came_from x]: looking [x] up fails, because [x] is
    [None] or a state that is not a key. *)
Inductive walk (came_from : gmap State (option Action * option State))
    : nat → option State → option State → Prop :=
  | walk_here x : walk came_from 0 x x
  | walk_step n s a prev y :
      came_from !! s = Some (Some a, prev) →
      walk came_from n prev y → walk came_from (S n) (Some s) y.

Definition no_entry (came_from : gmap State (option Action * option State))
    (x : option State) : Prop :=
  x ≫= (came_from !!.) = None.

(** Two link maps over the states of the 1x3 world: one whose links end,
    after two steps, at a state without entry, and one whose links lead into
    a cycle of two states. *)
Definition cf_dangling : gmap State (option Action * option State) :=
  <[clean_1x3 := (Some Vacuum, Some on_dirt_1x3)]>
    {[ on_dirt_1x3 := (Some East, Some start_1x3) ]}.

Definition cf_cycle : gmap State (option Action * option State) :=
  <[clean_1x3 := (Some Vacuum, Some on_dirt_1x3)]>
    (<[on_dirt_1x3 := (Some East, Some start_1x3)]>
       {[ start_1x3 := (Some West, Some on_dirt_1x3) ]}).

(** * Properties *)

(** Case analysis on whether a key looked up in a map is the key that was
    just inserted. *)
Ltac case_inserted k k' :=
  destruct (decide (k = k')) as [ <- | ];
  [ rewrite ?lookup_insert_eq | rewrite ?lookup_insert_ne by done ].

(** ** The successor generator *)

Lemma try_move_Ok grid r c d a dr dc new :
  try_move grid r c d (a, (dr, dc)) = Ok new →
  (new = [(a, mkState (Some (r + dr, c + dc)) d)] ∧
   legal_target grid (r + dr) (c + dc)) ∨
  (new = [] ∧ ¬ legal_target grid (r + dr) (c + dc)).
Proof.
  unfold try_move, legal_target.
  destruct (Z.leb_spec 0 (r + dr)); simpl;
    [ | intros [= <-]; right; split; [done | intros (? & _); lia] ].
  destruct (Z.ltb_spec (r + dr) (Z.of_nat (length grid))); simpl;
    [ | intros [= <-]; right; split; [done | intros (? & _); lia] ].
  destruct grid as [ | row0 rest ] eqn:Hg; [ simpl in *; lia | ].
  rewrite <- Hg in *.
  replace (len_row0 grid) with (Ok (Z.of_nat (length row0))) by (by rewrite Hg).
  assert (Hh : head grid = Some row0) by (by rewrite Hg).
  destruct (Z.leb_spec 0 (c + dc)); simpl;
    [ | intros [= <-]; right; split; [done | ];
        intros (_ & (? & _ & ?) & _); lia ].
  destruct (Z.ltb_spec (c + dc) (Z.of_nat (length row0))); simpl;
    [ | intros [= <-]; right; split; [done | ];
        intros (_ & (r0 & ? & ?) & _); simplify_eq; lia ].
  unfold cell.
  destruct (grid !! Z.to_nat (r + dr)) as [ row | ] eqn:Hrow; simpl; [ | done ].
  destruct (row !! Z.to_nat (c + dc)) as [ ch | ] eqn:Hch; simpl; [ | done ].
  case_bool_decide as Hw; intros [= <-].
  - left. split; [done | ]. split; [lia | ]. split.
    + exists row0. split; [done | lia].
    + by exists row, ch.
  - right. refine (conj eq_refl _). intros (_ & _ & row' & ch' & ? & ? & ?).
    by simplify_eq.
Qed.

Lemma get_neighbors_Ok state grid nbrs :
  get_neighbors state grid = Ok nbrs →
  ∃ r c mN mS mE mW,
    position state = Some (r, c) ∧
    try_move grid r c (dirty state) (North, (-1, 0)) = Ok mN ∧
    try_move grid r c (dirty state) (South, (1, 0)) = Ok mS ∧
    try_move grid r c (dirty state) (East, (0, 1)) = Ok mE ∧
    try_move grid r c (dirty state) (West, (0, -1)) = Ok mW ∧
    nbrs = mN ++ mS ++ mE ++ mW ++
           (if bool_decide ((r, c) ∈ dirty state)
            then [(Vacuum, mkState (Some (r, c)) (dirty state ∖ {[ (r, c) ]}))]
            else []).
Proof.
  unfold get_neighbors. destruct (position state) as [ [r c] | ]; [ | done ].
  unfold MOVES. cbn [move_loop].
  destruct (try_move grid r c (dirty state) (North, (-1, 0)))
    as [ mN | ] eqn:HN; [ | done ].
  destruct (try_move grid r c (dirty state) (South, (1, 0)))
    as [ mS | ] eqn:HS; [ | done ].
  destruct (try_move grid r c (dirty state) (East, (0, 1)))
    as [ mE | ] eqn:HE; [ | done ].
  destruct (try_move grid r c (dirty state) (West, (0, -1)))
    as [ mW | ] eqn:HW; [ | done ].
  cbn [mbind result_bind app]. intros Hn.
  exists r, c, mN, mS, mE, mW. split_and!; try done.
  case_bool_decide; simplify_eq; by rewrite <- ?app_assoc, ?app_nil_r.
Qed.

Lemma try_move_elem grid r c d a dr dc new a' s' :
  try_move grid r c d (a, (dr, dc)) = Ok new →
  (a', s') ∈ new ↔
  a' = a ∧ s' = mkState (Some (r + dr, c + dc)) d ∧
  legal_target grid (r + dr) (c + dc).
Proof.
  intros [ [-> Hl] | [-> Hl] ]%try_move_Ok.
  - rewrite list_elem_of_singleton. naive_solver.
  - rewrite elem_of_nil. naive_solver.
Qed.

Lemma try_move_labels grid r c d a dr dc new :
  try_move grid r c d (a, (dr, dc)) = Ok new → map fst new `sublist_of` [a].
Proof.
  intros [ [-> _] | [-> _] ]%try_move_Ok; simpl.
  - done.
  - apply sublist_nil_l.
Qed.

Lemma get_neighbors_labels state grid nbrs :
  get_neighbors state grid = Ok nbrs →
  map fst nbrs `sublist_of` [North; South; East; West; Vacuum].
Proof.
  intros (r & c & mN & mS & mE & mW & _ & HN & HS & HE & HW & ->)%get_neighbors_Ok.
  rewrite !map_app.
  change [North; South; East; West; Vacuum]
    with ([North] ++ [South] ++ [East] ++ [West] ++ [Vacuum]).
  repeat (apply sublist_app; [ by eapply try_move_labels | ]).
  case_bool_decide; [ done | apply sublist_nil_l ].
Qed.

Lemma elem_of_MOVES a dr dc :
  (a, (dr, dc)) ∈ MOVES ↔
  (a = North ∧ dr = -1 ∧ dc = 0) ∨ (a = South ∧ dr = 1 ∧ dc = 0) ∨
  (a = East ∧ dr = 0 ∧ dc = 1) ∨ (a = West ∧ dr = 0 ∧ dc = -1).
Proof. unfold MOVES. rewrite !elem_of_cons, elem_of_nil. naive_solver. Qed.

Lemma get_neighbors_elem state grid nbrs a s' :
  get_neighbors state grid = Ok nbrs →
  ∃ r c, position state = Some (r, c) ∧
    ((a, s') ∈ nbrs ↔
     (∃ dr dc, (a, (dr, dc)) ∈ MOVES ∧
        s' = mkState (Some (r + dr, c + dc)) (dirty state) ∧
        legal_target grid (r + dr) (c + dc)) ∨
     (a = Vacuum ∧ (r, c) ∈ dirty state ∧
        s' = mkState (Some (r, c)) (dirty state ∖ {[ (r, c) ]}))).
Proof.
  intros (r & c & mN & mS & mE & mW & Hp & HN & HS & HE & HW & ->)%get_neighbors_Ok.
  exists r, c. split; [done | ].
  rewrite !elem_of_app.
  rewrite (try_move_elem _ _ _ _ _ _ _ _ _ _ HN), (try_move_elem _ _ _ _ _ _ _ _ _ _ HS),
    (try_move_elem _ _ _ _ _ _ _ _ _ _ HE), (try_move_elem _ _ _ _ _ _ _ _ _ _ HW).
  setoid_rewrite elem_of_MOVES.
  case_bool_decide.
  - rewrite list_elem_of_singleton. naive_solver.
  - rewrite elem_of_nil. naive_solver.
Qed.
(** C5: no move successor produced by the successor generator lies outside
    the grid bounds or on a wall cell: its position is a cell inside the
    grid whose character is not ['#']. *)
Theorem moves_stay_on_open_cells state grid nbrs a s' :
  get_neighbors state grid = Ok nbrs →
  (a, s') ∈ nbrs → a ≠ Vacuum →
  ∃ nr nc, position s' = Some (nr, nc) ∧ legal_target grid nr nc.
Proof.
  intros Hn Hin Ha.
  destruct (get_neighbors_elem _ _ _ a s' Hn) as (r & c & _ & Hiff).
  apply Hiff in Hin as [ (dr & dc & _ & -> & Hl) | (-> & _) ]; [ | done ].
  by exists (r + dr), (c + dc).
Qed.

Lemma moves_stay_on_open_cells_witness :
  ∃ nr nc, position on_dirt_1x3 = Some (nr, nc) ∧ legal_target grid_1x3 nr nc.
Proof.
  apply (moves_stay_on_open_cells start_1x3 grid_1x3 [(East, on_dirt_1x3)] East).
  - vm_compute. reflexivity.
  - apply list_elem_of_singleton. reflexivity.
  - discriminate.
Defined.


(** ** Worked runs *)

(** C7: when the initial dirty set is empty, depth-first and uniform-cost
    search both print no action line and report exactly one expanded node. *)
Theorem clean_world_solved_at_once fuel ident start_state grid :
  dirty start_state = ∅ → (0 < fuel)%nat →
  dfs fuel start_state grid = Solved [] 0 1 ∧
  ucs ident fuel start_state grid = Solved [] 0 1 ∧
  printed (Solved [] 0 1) = ["0 nodes generated"; "1 nodes expanded"]%string.
Proof.
  intros Hd Hf. destruct fuel as [ | fuel ]; [ lia | ].
  split_and!.
  - unfold dfs. cbn [dfs_loop].
    rewrite decide_False by set_solver. by rewrite decide_True.
  - unfold ucs. cbn [ucs_loop heappop heap]. rewrite decide_True by done.
    unfold reconstruct_path. cbn [reconstruct_loop came_from mbind option_bind].
    by rewrite lookup_singleton_eq.
  - reflexivity.
Qed.

Lemma clean_world_solved_at_once_witness :
  dfs 1 (mkState None ∅) [] = Solved [] 0 1 ∧
  ucs Z.of_nat 1 (mkState None ∅) [] = Solved [] 0 1 ∧
  printed (Solved [] 0 1) = ["0 nodes generated"; "1 nodes expanded"]%string.
Proof.
  apply (clean_world_solved_at_once 1 Z.of_nat (mkState None ∅) []).
  - reflexivity.
  - lia.
Defined.

(** C4: the example world file parses to the agent at (0,0), dirt at (0,1)
    and a wall at (0,2), and uniform-cost search prints [E], [V],
    [2 nodes generated], [3 nodes expanded] on it. *)
Theorem ucs_example_1x3 fuel ident fs prog file_path :
  (3 ≤ fuel)%nat → fs file_path = Ok file_1x3 →
  parse_world (Ok file_1x3) = Ok (grid_1x3, Some (0, 0), {[ (0, 1) ]}) ∧
  cell grid_1x3 0 2 = Ok ch_hash ∧
  printed (ucs ident fuel start_1x3 grid_1x3) =
    ["E"; "V"; "2 nodes generated"; "3 nodes expanded"]%string ∧
  main fuel ident fs [prog; "uniform-cost"; file_path]%string =
    Some (["E"; "V"; "2 nodes generated"; "3 nodes expanded"]%string, 0).
Proof.
  intros Hf Hfs. destruct fuel as [ | [ | [ | fuel ] ] ]; try lia.
  assert (parse_world (Ok file_1x3) = Ok (grid_1x3, Some (0, 0), {[ (0, 1) ]}))
    as Hparse by (vm_compute; reflexivity).
  split_and!; [ done | reflexivity | vm_compute; reflexivity | ].
  unfold main. rewrite Hfs, Hparse. vm_compute. reflexivity.
Qed.

Lemma ucs_example_1x3_witness :
  parse_world (Ok file_1x3) = Ok (grid_1x3, Some (0, 0), {[ (0, 1) ]}) ∧
  cell grid_1x3 0 2 = Ok ch_hash ∧
  printed (ucs Z.of_nat 3 start_1x3 grid_1x3) =
    ["E"; "V"; "2 nodes generated"; "3 nodes expanded"]%string ∧
  main 3 Z.of_nat (fun _ => Ok file_1x3)
       ["planner.py"; "uniform-cost"; "world.txt"]%string =
    Some (["E"; "V"; "2 nodes generated"; "3 nodes expanded"]%string, 0).
Proof.
  apply (ucs_example_1x3 3 Z.of_nat (fun _ => Ok file_1x3)
           "planner.py" "world.txt").
  - lia.
  - reflexivity.
Defined.

(** ** The parser *)

Lemma scan_line_spec r c line row start d :
  scan_line r c line row start d =
  (row ++ map render line,
   from_option Some start (last (marks_in_line ch_at r c line)),
   list_to_set (marks_in_line ch_star r c line) ∪ d).
Proof.
  revert c row start d. induction line as [ | ch line IH ]; intros c row start d.
  - simpl. rewrite app_nil_r. f_equal. set_solver.
  - cbn [scan_line marks_in_line map]. unfold render at 1.
    destruct (N.eqb_spec ch ch_at) as [ -> | Hat ].
    + rewrite IH. cbn [N.eqb ch_at ch_star Pos.eqb app].
      rewrite <- app_assoc. cbn [app].
      rewrite last_cons. by destruct (last _).
    + destruct (N.eqb_spec ch ch_star) as [ -> | Hstar ]; rewrite IH;
        rewrite <- app_assoc; cbn [app]; [ | done ].
      f_equal. rewrite list_to_set_cons. set_solver.
Qed.

Lemma parse_rows_spec n r f grid start d :
  parse_rows n r f grid start d =
  (grid ++ map (map render) (body_lines n f),
   from_option Some start (last (marks ch_at r (body_lines n f))),
   list_to_set (marks ch_star r (body_lines n f)) ∪ d).
Proof.
  revert r f grid start d. induction n as [ | n IH ]; intros r f grid start d.
  - simpl. rewrite app_nil_r. f_equal. set_solver.
  - cbn [parse_rows body_lines marks map].
    destruct (readline f) as [line f'] eqn:Hr. cbn [fst snd].
    rewrite scan_line_spec, IH. cbn [app].
    rewrite <- app_assoc. cbn [app]. f_equal; [ f_equal | ].
    + rewrite last_app. by destruct (last (marks _ _ _)).
    + rewrite list_to_set_app_L. set_solver.
Qed.

Lemma parse_world_spec raw :
  parse_world (Ok raw) =
  (cols ← declared_cols raw;
   rows ← declared_rows raw;
   let lines := body_lines (Z.to_nat rows) (world_body raw) in
   Ok (map (map render) lines,
       last (marks ch_at 0 lines),
       list_to_set (marks ch_star 0 lines))).
Proof.
  unfold parse_world, declared_cols, declared_rows, world_body.
  cbn [mbind result_bind].
  destruct (readline (utf_8_sig raw)) as [line1 f1]. cbn [fst snd].
  destruct (int_of_text line1) as [ cols | ]; [ | done ].
  destruct (readline f1) as [line2 f2]. cbn [fst snd].
  destruct (int_of_text line2) as [ rows | ]; [ | done ].
  cbn [mbind result_bind]. rewrite parse_rows_spec. cbn [app from_option].
  rewrite (right_id_L ∅ (∪)). by destruct (last _).
Qed.

Lemma int_of_text_error s e : int_of_text s = Raise e → e = ValueError.
Proof. unfold int_of_text. repeat case_match; congruence. Qed.

Lemma length_body_lines n f : length (body_lines n f) = n.
Proof. revert f. induction n as [ | n IH ]; intros f; simpl; [ done | by rewrite IH ]. Qed.

Lemma int_scan_ones n :
  ∀ acc d, ∃ v,
    int_scan (repeat 49%N n) acc d false = Some (v, (d + n)%nat, []).
Proof.
  induction n as [ | n IH ]; intros acc d.
  - exists acc. simpl. by rewrite Nat.add_0_r.
  - cbn [repeat int_scan].
    change (49 =? 95)%N with false. cbv iota.
    change ((48 <=? 49)%N && (49 <=? 57)%N) with true. cbv iota.
    destruct (IH (10 * acc + (Z.of_N 49 - 48)) (S d)) as [ v Hv ].
    exists v. rewrite Hv. do 2 f_equal. f_equal. lia.
Qed.

(** The digit limit of [int]: a literal of [n] digits [1] is accepted when
    [n] is between 1 and [int_max_str_digits], and refused when it is
    longer. *)
Lemma int_of_text_limit n :
  ((0 < n ≤ int_max_str_digits)%nat →
   ∃ v, int_of_text (repeat 49%N n) = Ok v) ∧
  ((int_max_str_digits < n)%nat →
   int_of_text (repeat 49%N n) = Raise ValueError).
Proof.
  destruct n as [ | n ]; [ split; [ lia | unfold int_max_str_digits; lia ] | ].
  unfold int_of_text. rewrite map_repeat.
  change (int_normalise 49) with 49%N.
  destruct (int_scan_ones (S n) 0 0) as [ v Hv ].
  change (0 + S n)%nat with (S n) in Hv.
  cbn [repeat skip_c_space].
  change (is_c_space 49) with false. cbv iota.
  change (49 =? 43)%N with false. change (49 =? 45)%N with false.
  change (49 =? 95)%N with false. cbv iota.
  cbn [repeat] in Hv. rewrite Hv.
  split; intros Hn.
  - exists (1 * v).
    destruct (Nat.ltb_spec int_max_str_digits (S n)); [ lia | done ].
  - destruct (Nat.ltb_spec int_max_str_digits (S n)); [ done | lia ].
Qed.

(** C3, as the code has it: the parser does not compare the header counts
    with the grid.  On the text the reader delivers, parsing fails, with
    [ValueError], exactly when [int] refuses one of the two header lines: the
    stripped line is not an integer literal, or it has more digits than
    [int_max_str_digits].  Else it returns a grid with as many rows as the
    header declares, each as long as its stripped line (lines past the end of
    the file are empty rows), whatever the declared column count.  A leading
    byte-order mark is dropped.  An error of the parser ends the process with
    status 1 and no output. *)
Theorem parse_world_outcome (raw : text) :
  match declared_cols raw, declared_rows raw with
  | Ok cols, Ok rows =>
      ∃ grid start d,
        parse_world (Ok raw) = Ok (grid, start, d) ∧
        grid = map (map render)
                 (body_lines (Z.to_nat rows) (world_body raw)) ∧
        length grid = Z.to_nat rows
  | _, _ => parse_world (Ok raw) = Raise ValueError
  end ∧
  (∀ e, parse_world (Ok raw) = Raise e ↔
        e = ValueError ∧
        (declared_cols raw = Raise ValueError ∨
         declared_rows raw = Raise ValueError)) ∧
  (head raw ≠ Some ch_bom →
     parse_world (Ok (ch_bom :: raw)) = parse_world (Ok raw)) ∧
  (∀ fuel ident fs prog algorithm file_path e,
     fs file_path = Ok raw → parse_world (Ok raw) = Raise e →
     main fuel ident fs [prog; algorithm; file_path] = Some ([], 1)).
Proof.
  split_and!.
  - rewrite parse_world_spec.
    destruct (declared_cols raw) as [ cols | e ] eqn:Hc.
    + destruct (declared_rows raw) as [ rows | e ] eqn:Hr.
      * eexists _, _, _. split; [ done | ]. split; [ done | ].
        by rewrite !length_map, length_body_lines.
      * apply int_of_text_error in Hr as ->. done.
    + apply int_of_text_error in Hc as ->. done.
  - intros e. rewrite parse_world_spec.
    destruct (declared_cols raw) as [ cols | e1 ] eqn:Hc.
    + destruct (declared_rows raw) as [ rows | e2 ] eqn:Hr.
      * cbn. split; [ done | ]. intros [ _ [ ? | ? ] ]; done.
      * apply int_of_text_error in Hr as ->. cbn.
        split; [ intros [= <-]; auto | by intros [ -> _ ] ].
    + apply int_of_text_error in Hc as ->. cbn.
      split; [ intros [= <-]; auto | by intros [ -> _ ] ].
  - intros Hb. unfold parse_world. cbn [mbind result_bind].
    replace (utf_8_sig (ch_bom :: raw)) with (utf_8_sig raw); [ done | ].
    destruct raw as [ | c raw ]; [ done | ].
    cbn. destruct (N.eqb_spec c ch_bom) as [ -> | ]; done.
  - intros fuel ident fs prog algorithm file_path e Hfs He.
    unfold main. by rewrite Hfs, He.
Qed.

Lemma parse_world_outcome_witness :
  parse_world (Ok (ch_bom :: file_1x3)) = parse_world (Ok file_1x3).
Proof.
  apply (parse_world_outcome file_1x3).
  vm_compute. discriminate.
Defined.

(** C3 as stated fails: a file whose only grid line is shorter than the
    declared column count, and a file with fewer grid lines than the declared
    row count, both parse, and the planner prints its result and exits with
    status 0. *)
Lemma parse_accepts_grid_mismatch :
  declared_cols file_short_line = Ok 5 ∧
  parse_world (Ok file_short_line) =
    Ok ([[ch_under; ch_star]], Some (0, 0), {[ (0, 1) ]}) ∧
  main 3 Z.of_nat (fun _ => Ok file_short_line)
       ["planner.py"; "uniform-cost"; "world.txt"]%string =
    Some (["E"; "V"; "2 nodes generated"; "3 nodes expanded"]%string, 0) ∧
  declared_rows file_missing_row = Ok 2 ∧
  parse_world (Ok file_missing_row) = Ok ([[ch_under]; []], Some (0, 0), ∅) ∧
  main 1 Z.of_nat (fun _ => Ok file_missing_row)
       ["planner.py"; "depth-first"; "world.txt"]%string =
    Some (["0 nodes generated"; "1 nodes expanded"]%string, 0).
Proof. split_and!; vm_compute; reflexivity. Qed.

(** C8: when the chosen search ends with an empty frontier, the planner
    writes nothing at all and exits with status 0. *)
Theorem no_solution_is_silent fuel ident fs prog algorithm file_path
    grid start_pos d :
  parse_world (fs file_path) = Ok (grid, start_pos, d) →
  (algorithm = "depth-first"%string ∧
   dfs fuel (mkState start_pos d) grid = Exhausted) ∨
  (algorithm = "uniform-cost"%string ∧
   ucs ident fuel (mkState start_pos d) grid = Exhausted) →
  printed Exhausted = [] ∧
  main fuel ident fs [prog; algorithm; file_path] = Some ([], 0).
Proof.
  intros Hp Hs. split; [ done | ]. unfold main. rewrite Hp.
  destruct Hs as [ [-> Hs] | [-> Hs] ].
  - rewrite decide_True by done. by rewrite Hs.
  - rewrite decide_False by done. rewrite decide_True by done. by rewrite Hs.
Qed.

Lemma no_solution_is_silent_witness :
  printed Exhausted = [] ∧
  main 5 Z.of_nat (fun _ => Ok file_walled)
       ["planner.py"; "depth-first"; "world.txt"]%string = Some ([], 0).
Proof.
  apply (no_solution_is_silent 5 Z.of_nat (fun _ => Ok file_walled)
           "planner.py" "depth-first" "world.txt"
           [[ch_under; ch_hash; ch_star]] (Some (0, 0)) {[ (0, 2) ]}).
  - vm_compute. reflexivity.
  - left. split; [ reflexivity | vm_compute; reflexivity ].
Defined.
(** ** Action sequences and the search graph *)

Lemma lookup_action_Some a nbrs s' :
  lookup_action a nbrs = Some s' → (a, s') ∈ nbrs.
Proof.
  induction nbrs as [ | [a0 s0] nbrs IH ]; [ done | ]. simpl.
  case_decide as Ha.
  - intros [= ->]. subst. apply list_elem_of_here.
  - intros H. apply list_elem_of_further. by apply IH.
Qed.

Lemma lookup_action_elem a nbrs s' :
  NoDup (map fst nbrs) → (a, s') ∈ nbrs → lookup_action a nbrs = Some s'.
Proof.
  induction nbrs as [ | [a0 s0] nbrs IH ]; intros Hnd Hin.
  - by apply elem_of_nil in Hin.
  - simpl in *. apply NoDup_cons in Hnd as [Hfresh Hnd].
    apply elem_of_cons in Hin as [ [= -> ->] | Hin ].
    + by rewrite decide_True.
    + rewrite decide_False; [ by apply IH | ].
      intros ->. apply Hfresh. apply list_elem_of_fmap. by exists (a0, s').
Qed.

Lemma get_neighbors_NoDup state grid nbrs :
  get_neighbors state grid = Ok nbrs → NoDup (map fst nbrs).
Proof.
  intros H%get_neighbors_labels. eapply sublist_NoDup; [ | exact H ].
  repeat (apply NoDup_cons; split; [ set_solver | ]). apply NoDup_nil_2.
Qed.

Lemma apply_action_edge grid s a s' :
  apply_action grid s a = Some s' ↔ edge grid s a s'.
Proof.
  unfold apply_action, edge. split.
  - destruct (get_neighbors s grid) as [ nbrs | ]; [ | done ].
    intros H%lookup_action_Some. by exists nbrs.
  - intros (nbrs & Hn & Hin). rewrite Hn.
    apply lookup_action_elem; [ by eapply get_neighbors_NoDup | done ].
Qed.

Lemma edge_functional grid s nbrs a s' :
  get_neighbors s grid = Ok nbrs → edge grid s a s' → (a, s') ∈ nbrs.
Proof. intros Hn (nbrs' & Hn' & Hin). congruence. Qed.

Lemma execute_app grid s acts1 acts2 :
  execute grid s (acts1 ++ acts2) =
  execute grid s acts1 ≫= fun s' => execute grid s' acts2.
Proof.
  revert s. induction acts1 as [ | a acts1 IH ]; intros s; [ done | ].
  simpl. destruct (apply_action grid s a); [ apply IH | done ].
Qed.

Lemma execute_reach grid start acts n s s' :
  reach grid start n s → execute grid s acts = Some s' →
  reach grid start (n + length acts) s'.
Proof.
  revert n s. induction acts as [ | a acts IH ]; intros n s Hr.
  - simpl. intros [= <-]. by rewrite Nat.add_0_r.
  - simpl. destruct (apply_action grid s a) as [ s1 | ] eqn:Ha; [ | done ].
    intros He. replace (n + S (length acts))%nat with (S n + length acts)%nat by lia.
    apply (IH _ s1); [ | done ].
    eapply reach_step; [ done | ]. by apply apply_action_edge.
Qed.

Lemma reach_position grid start n s :
  reach grid start n s → is_Some (position start) → is_Some (position s).
Proof.
  induction 1 as [ | n s a s' _ IH (nbrs & Hn & Hin) ]; [ done | ]. intros _.
  destruct (get_neighbors_elem _ _ _ a s' Hn) as (r & c & _ & Hiff).
  apply Hiff in Hin as [ (dr & dc & _ & -> & _) | (_ & _ & ->) ]; by eexists.
Qed.

(** On a rectangular grid the successor generator raises only for want of a
    position. *)
Lemma try_move_total grid r c d m :
  rectangular grid → ∃ new, try_move grid r c d m = Ok new.
Proof.
  intros Hrect. destruct m as [a [dr dc]]. unfold try_move.
  destruct (Z.leb_spec 0 (r + dr)); [ | by eexists ].
  destruct (Z.ltb_spec (r + dr) (Z.of_nat (length grid))); [ | by eexists ].
  cbn [andb]. destruct grid as [ | row0 rest ] eqn:Hg; [ simpl in *; lia | ].
  rewrite <- Hg in *.
  replace (len_row0 grid) with (Ok (Z.of_nat (length row0))) by (by rewrite Hg).
  destruct (Z.leb_spec 0 (c + dc)); [ | by eexists ].
  cbn [mbind result_bind].
  destruct (Z.ltb_spec (c + dc) (Z.of_nat (length row0))); [ | by eexists ].
  unfold cell.
  destruct (lookup_lt_is_Some_2 grid (Z.to_nat (r + dr))) as [row Hrow]; [ lia | ].
  rewrite Hrow.
  assert (length row = length row0) as Hlen.
  { apply Hrect; [ by rewrite Hg | by eapply list_elem_of_lookup_2 ]. }
  destruct (lookup_lt_is_Some_2 row (Z.to_nat (c + dc))) as [ch Hch]; [ lia | ].
  rewrite Hch. cbn [mbind result_bind]. case_bool_decide; by eexists.
Qed.

Lemma get_neighbors_total grid s :
  rectangular grid → is_Some (position s) →
  ∃ nbrs, get_neighbors s grid = Ok nbrs.
Proof.
  intros Hrect [[r c] Hp]. unfold get_neighbors. rewrite Hp.
  unfold MOVES. cbn [move_loop].
  destruct (try_move_total grid r c (dirty s) (North, (-1, 0)) Hrect) as [? ->].
  destruct (try_move_total grid r c (dirty s) (South, (1, 0)) Hrect) as [? ->].
  destruct (try_move_total grid r c (dirty s) (East, (0, 1)) Hrect) as [? ->].
  destruct (try_move_total grid r c (dirty s) (West, (0, -1)) Hrect) as [? ->].
  cbn [mbind result_bind]. case_bool_decide; by eexists.
Qed.

(** ** The frontier of uniform-cost search *)

Lemma entry_lt_irrefl e : entry_lt e e = false.
Proof.
  destruct e as [[c i] s]. unfold entry_lt.
  rewrite Nat.ltb_irrefl, Z.ltb_irrefl. by rewrite andb_false_r.
Qed.

Lemma entry_lt_false_trans a b c :
  entry_lt a b = false → entry_lt b c = false → entry_lt a c = false.
Proof.
  destruct a as [[ca ia] sa], b as [[cb ib] sb], c as [[cc ic] sc].
  unfold entry_lt. rewrite !orb_false_iff, !andb_false_iff.
  rewrite !Nat.ltb_ge, !Nat.eqb_neq, !Z.ltb_ge. lia.
Qed.

Lemma entry_lt_asym a b : entry_lt a b = true → entry_lt b a = false.
Proof.
  destruct a as [[ca ia] sa], b as [[cb ib] sb].
  unfold entry_lt. rewrite orb_true_iff, andb_true_iff, orb_false_iff, andb_false_iff.
  rewrite Nat.ltb_lt, Nat.eqb_eq, Z.ltb_lt, Nat.ltb_ge, Nat.eqb_neq, Z.ltb_ge. lia.
Qed.

Lemma heappop_None h : heappop h = None → h = [].
Proof.
  destruct h as [ | e rest ]; [ done | ]. simpl.
  destruct (heappop rest) as [ [m rest'] | ]; [ | done ].
  by destruct (entry_lt m e).
Qed.

Lemma heappop_Some h e h' :
  heappop h = Some (e, h') →
  h ≡ₚ e :: h' ∧ ∀ e', e' ∈ h → entry_lt e' e = false.
Proof.
  revert e h'. induction h as [ | e0 rest IH ]; intros e h'; [ done | ].
  simpl. destruct (heappop rest) as [ [m rest'] | ] eqn:Hpop.
  - destruct (IH _ _ eq_refl) as [Hperm Hmin].
    destruct (entry_lt m e0) eqn:Hlt; intros [= <- <-].
    + split; [ by rewrite Hperm, Permutation_swap | ].
      intros e' [ -> | Hin ]%elem_of_cons; [ by apply entry_lt_asym | eauto ].
    + split; [ done | ].
      intros e' [ -> | Hin ]%elem_of_cons; [ apply entry_lt_irrefl | ].
      eapply entry_lt_false_trans; eauto.
  - apply heappop_None in Hpop as ->. intros [= <- <-]. split; [ done | ].
    intros e' ->%list_elem_of_singleton. apply entry_lt_irrefl.
Qed.

Lemma entry_lt_false_cost c i s c' i' s' :
  entry_lt (c', i', s') (c, i, s) = false → (c ≤ c')%nat.
Proof.
  unfold entry_lt. rewrite orb_false_iff, Nat.ltb_ge. lia.
Qed.
(** ** Finiteness of the state space *)

Lemma elem_of_subsets l d : d ∈ subsets l ↔ d ⊆ list_to_set l.
Proof.
  revert d. induction l as [ | x l IH ]; intros d; simpl.
  - rewrite list_elem_of_singleton. set_solver.
  - rewrite elem_of_app, list_elem_of_fmap. setoid_rewrite IH. split.
    + intros [ H | (d' & -> & H) ]; set_solver.
    + intros H. destruct (decide (x ∈ d)) as [ Hx | Hx ].
      * right. exists (d ∖ {[ x ]}). split; [ | set_solver ].
        apply set_eq. intros y. destruct (decide (y = x)); set_solver.
      * left. set_solver.
Qed.

Lemma elem_of_cells grid r c :
  (r, c) ∈ cells grid ↔
  0 ≤ r < Z.of_nat (length grid) ∧ 0 ≤ c < Z.of_nat (width grid).
Proof.
  unfold cells. rewrite list_elem_of_bind. setoid_rewrite list_elem_of_bind.
  setoid_rewrite list_elem_of_singleton. setoid_rewrite elem_of_seqZ.
  split.
  - intros (r' & (c' & [= -> ->] & ?) & ?). lia.
  - intros [? ?]. exists r. split; [ | lia ]. exists c. split; [ done | lia ].
Qed.

Lemma elem_of_universe grid start s :
  s ∈ universe grid start ↔
  (position s = position start ∨
   ∃ r c, position s = Some (r, c) ∧ (r, c) ∈ cells grid) ∧
  dirty s ⊆ dirty start.
Proof.
  unfold universe. generalize (cells grid). intros cs.
  rewrite elem_of_list_to_set, list_elem_of_bind.
  setoid_rewrite list_elem_of_bind. setoid_rewrite list_elem_of_singleton.
  setoid_rewrite elem_of_subsets. setoid_rewrite list_to_set_elements_L.
  setoid_rewrite elem_of_cons. setoid_rewrite list_elem_of_fmap.
  split.
  - intros (p & (d & -> & Hd) & [ -> | ([r c] & -> & Hc) ]); simpl.
    + by split; [ left | ].
    + split; [ right; by exists r, c | done ].
  - intros [ [ Hp | (r & c & Hp & Hc) ] Hd ]; destruct s as [p d]; simpl in *.
    + exists p. split; [ by exists d | by left ].
    + exists p. split; [ by exists d | ]. right. by exists (r, c).
Qed.

Lemma start_in_universe grid start : start ∈ universe grid start.
Proof. apply elem_of_universe. split; [ by left | done ]. Qed.

Lemma legal_target_cell grid nr nc : legal_target grid nr nc → (nr, nc) ∈ cells grid.
Proof.
  intros (Hr & (row0 & Hh & Hc) & _). apply elem_of_cells. split; [ done | ].
  destruct grid; simplify_eq/=. done.
Qed.

Lemma universe_closed grid start s a s' :
  s ∈ universe grid start → edge grid s a s' → s' ∈ universe grid start.
Proof.
  rewrite !elem_of_universe. intros [Hp Hd] (nbrs & Hn & Hin).
  destruct (get_neighbors_elem _ _ _ a s' Hn) as (r & c & Hs & Hiff).
  destruct (proj1 Hiff Hin) as [ (dr & dc & _ & -> & Hl) | (_ & _ & ->) ]; simpl.
  - split; [ | done ]. right. eexists _, _. split; [ done | ].
    by apply legal_target_cell.
  - split; [ | set_solver ]. rewrite <- Hs. done.
Qed.

Lemma reach_universe grid start n s :
  reach grid start n s → s ∈ universe grid start.
Proof.
  induction 1; [ apply start_in_universe | by eapply universe_closed ].
Qed.
(** ** Invariants of uniform-cost search *)

Lemma frontier_complete grid start (M : gmap State nat) bound :
  is_Some (M !! start) →
  (∀ s c n, M !! s = Some c → reach grid start n s → (c ≤ n)%nat) →
  (∀ s c, M !! s = Some c → (c < bound)%nat → expanded grid M s) →
  ∀ n s, reach grid start n s → (n ≤ bound)%nat → is_Some (M !! s).
Proof.
  intros Hs Hleast Hexp. induction 1 as [ | n s a s' Hr IH He ]; intros Hb.
  - done.
  - destruct IH as [c Hc]; [ lia | ].
    destruct (Hexp s c Hc) as (_ & nbrs & Hn & Hall).
    { specialize (Hleast _ _ _ Hc Hr). lia. }
    eapply Hall, edge_functional; done.
Qed.

Lemma expanded_mono grid (M M' : gmap State nat) s :
  (∀ s', is_Some (M !! s') → is_Some (M' !! s')) →
  expanded grid M s → expanded grid M' s.
Proof.
  intros Hsub (Hd & nbrs & Hn & Hall). split; [ done | ].
  exists nbrs. split; [ done | ]. intros a s' Hin. eapply Hsub, Hall, Hin.
Qed.

Lemma relax_complete grid start exp cur c seen st n s :
  relax_inv grid start exp cur c seen st →
  reach grid start n s → (n ≤ c)%nat → is_Some (cost_so_far st !! s).
Proof.
  intros [Hmaps Hcur Hdirty Hcb Hmin Hpend Hseen Hbound] Hr Hn.
  destruct Hmaps as [Hst Hsf Hreach Hleast Hheap Hfrom].
  eapply (frontier_complete grid start (cost_so_far st) c); eauto.
  intros s1 c1 Hc1 Hlt.
  destruct (Hpend s1) as [ -> | [ (c' & i & Hin) | He ] ]; [ by eexists | .. ].
  - rewrite Hcur in Hc1. injection Hc1 as <-. lia.
  - specialize (Hmin _ _ _ Hin). rewrite (Hheap _ _ _ Hin) in Hc1.
    injection Hc1 as <-. lia.
  - done.
Qed.

Lemma relax_step ident grid start exp cur c seen st a nb :
  relax_inv grid start exp cur c seen st → edge grid cur a nb →
  relax_inv grid start exp cur c (seen ++ [(a, nb)])
            (ucs_relax ident [(a, nb)] c cur st) ∧
  (length (heap (ucs_relax ident [(a, nb)] c cur st)) + size (cost_so_far st) =
   length (heap st) + size (cost_so_far (ucs_relax ident [(a, nb)] c cur st)))%nat.
Proof.
  intros Hinv He.
  pose proof (fun n => relax_complete _ _ _ _ _ _ _ n nb Hinv) as Hfresh.
  destruct Hinv as [Hmaps Hcur Hdirty Hcb Hmin Hpend Hseen Hbound].
  destruct Hmaps as [Hst Hsf Hreach Hleast Hheap Hfrom].
  assert (reach grid start (S c) nb) as Hr by (eapply reach_step; eauto).
  cbn [ucs_relax]. unfold improves.
  destruct (cost_so_far st !! nb) as [ old | ] eqn:Hnb.
  - (* the successor has a cost already, and it is not larger *)
    pose proof (Hleast _ _ _ Hnb Hr).
    replace (S c <? old)%nat with false by (symmetry; apply Nat.ltb_ge; lia).
    split; [ | done ]. destruct st as [h cf m g o]. simpl in *.
    split; [ split | .. ]; simpl; try done.
    intros a' s' [ Hin | [= -> ->]%list_elem_of_singleton ]%elem_of_app; eauto.
  - (* a new state: it is pushed at cost c + 1 *)
    assert (nb ≠ start) as Hns by congruence.
    assert (nb ≠ cur) as Hnc by congruence.
    assert (∀ s', is_Some (cost_so_far st !! s') →
                  is_Some (<[nb := S c]> (cost_so_far st) !! s')) as Hsub.
    { intros s' ?. case_inserted nb s'; eauto. }
    assert (∀ s' k, cost_so_far st !! s' = Some k → nb ≠ s') as Hne
      by congruence.
    split.
    + split; [ split | .. ]; cbn [heap came_from cost_so_far heappush].
      * by rewrite lookup_insert_ne.
      * by rewrite lookup_insert_ne.
      * intros s k. case_inserted nb s; [ by intros [= <-] | eauto ].
      * intros s k n. case_inserted nb s; [ | eauto ].
        intros [= <-] Hrn. destruct (decide (S c ≤ n)%nat); [ done | ].
        destruct (Hfresh n Hrn) as [? ?]; [ lia | congruence ].
      * intros c' i s [ Hin | [= -> -> ->]%list_elem_of_singleton ]%elem_of_app.
        -- rewrite lookup_insert_ne; eauto.
        -- by rewrite lookup_insert_eq.
      * intros s k. case_inserted nb s.
        -- intros [= <-]. exists a, cur. by rewrite lookup_insert_ne.
        -- intros Hk. destruct (Hfrom _ _ Hk) as (a' & p & ? & ? & ?).
           exists a', p. rewrite lookup_insert_ne by eauto. done.
      * by rewrite lookup_insert_ne.
      * done.
      * done.
      * intros c' i s [ Hin | [= -> -> ->]%list_elem_of_singleton ]%elem_of_app;
          [ eauto | lia ].
      * intros s. case_inserted nb s.
        -- intros _. right. left. exists (S c), (ident (next_obj st)).
           apply elem_of_app. right. by apply list_elem_of_singleton.
        -- intros Hs.
           destruct (Hpend s Hs) as [ -> | [ (c' & i & Hin) | Hx ] ].
           ++ by left.
           ++ right. left. exists c', i. apply elem_of_app. by left.
           ++ right. right. by eapply expanded_mono.
      * intros a' s' [ Hin | [= -> ->]%list_elem_of_singleton ]%elem_of_app.
        -- eauto.
        -- by rewrite lookup_insert_eq.
      * intros s k. case_inserted nb s; [ intros [= <-]; lia | eauto ].
    + cbn [heap cost_so_far]. unfold heappush.
      rewrite length_app, map_size_insert_None by done. simpl. lia.
Qed.

Lemma ucs_relax_cons ident x rest c cur st :
  ucs_relax ident (x :: rest) c cur st =
  ucs_relax ident rest c cur (ucs_relax ident [x] c cur st).
Proof. by destruct x. Qed.

Lemma relax_all ident grid start exp cur c all :
  get_neighbors cur grid = Ok all →
  ∀ nbrs seen st,
    (∀ x, x ∈ nbrs → x ∈ all) →
    relax_inv grid start exp cur c seen st →
    relax_inv grid start exp cur c (seen ++ nbrs)
              (ucs_relax ident nbrs c cur st) ∧
    (length (heap (ucs_relax ident nbrs c cur st)) + size (cost_so_far st) =
     length (heap st) + size (cost_so_far (ucs_relax ident nbrs c cur st)))%nat.
Proof.
  intros Hall. induction nbrs as [ | [a nb] nbrs IH ]; intros seen st Hsub Hinv.
  - simpl. by rewrite app_nil_r.
  - rewrite ucs_relax_cons.
    destruct (relax_step ident _ _ _ _ _ _ _ a nb Hinv) as [Hinv' Hm'].
    { exists all. split; [ done | ]. apply Hsub, list_elem_of_here. }
    destruct (IH (seen ++ [(a, nb)]) (ucs_relax ident [(a, nb)] c cur st))
      as [Hinv'' Hm'']; [ | done | ].
    { intros x Hx. by apply Hsub, list_elem_of_further. }
    rewrite <- app_assoc in Hinv''. split; [ done | lia ].
Qed.

Lemma reconstruct_ok grid start st :
  maps_ok grid start st →
  ∀ c s fuel acc,
    cost_so_far st !! s = Some c → (c < fuel)%nat →
    ∃ acts,
      reconstruct_loop fuel (came_from st) (Some s) acc = Some (Ok (acts ++ rev acc)) ∧
      length acts = c ∧ execute grid start acts = Some s.
Proof.
  intros [Hst Hsf Hreach Hleast Hheap Hfrom].
  induction c as [ | c IH ]; intros s fuel acc Hc Hf;
    (destruct fuel as [ | fuel ]; [ lia | ]); cbn [reconstruct_loop mbind option_bind].
  - assert (s = start) as -> by (apply Hreach in Hc; by inversion Hc).
    rewrite Hsf. by exists [].
  - destruct (Hfrom _ _ Hc) as (a & p & -> & Hp & He).
    destruct (IH p fuel (acc ++ [a]) Hp) as (acts & -> & Hlen & Hex); [ lia | ].
    exists (acts ++ [a]). rewrite rev_unit, <- app_assoc. split; [ done | ].
    split; [ rewrite length_app; simpl; lia | ].
    rewrite execute_app, Hex. simpl.
    apply apply_action_edge in He. by rewrite He.
Qed.

Lemma maps_ok_size grid start st :
  maps_ok grid start st →
  (size (cost_so_far st) ≤ size (universe grid start))%nat.
Proof.
  intros Hm. rewrite <- size_dom. apply subseteq_size.
  intros s [c Hc]%elem_of_dom. eapply reach_universe, ok_reach; eauto.
Qed.

(** Popping the least entry starts the loop over its successors. *)
Lemma pop_relax_inv grid start exp st c i cur heap' :
  ucs_inv grid start exp st →
  heappop (heap st) = Some ((c, i, cur), heap') →
  dirty cur ≠ ∅ →
  relax_inv grid start (S exp) cur c []
    (mkUcs heap' (came_from st) (cost_so_far st) (nodes_generated st) (next_obj st)).
Proof.
  intros [Hmaps Hpend Hbound] [Hperm Hmin]%heappop_Some Hd.
  pose proof Hmaps as [Hst Hsf Hreach Hleast Hheap Hfrom].
  assert (∀ e, e ∈ heap' → e ∈ heap st) as Hsub.
  { intros e He. rewrite Hperm. by apply list_elem_of_further. }
  assert (cost_so_far st !! cur = Some c) as Hcur.
  { apply (Hheap c i). rewrite Hperm. apply list_elem_of_here. }
  split; [ split | .. ]; cbn [heap came_from cost_so_far]; eauto.
  - by apply Hbound in Hcur; lia.
  - intros c' i' s Hin. eapply entry_lt_false_cost, Hmin, Hsub, Hin.
  - intros s Hs. destruct (Hpend s Hs) as [ (c' & i' & Hin) | He ]; [ | by eauto ].
    rewrite Hperm in Hin. apply elem_of_cons in Hin as [ [= -> -> ->] | Hin ]; eauto.
  - by intros a s' ?%elem_of_nil.
Qed.

(** When the loop over the successors ends, the popped state is expanded. *)
Lemma relax_done grid start exp cur c nbrs st :
  get_neighbors cur grid = Ok nbrs →
  relax_inv grid start exp cur c nbrs st → ucs_inv grid start exp st.
Proof.
  intros Hn [Hmaps Hcur Hdirty Hcb Hmin Hpend Hseen Hbound].
  split; [ done | | done ].
  intros s Hs. destruct (Hpend s Hs) as [ -> | [ ? | ? ] ]; eauto.
  right. split; [ done | ]. by exists nbrs.
Qed.

Lemma min_cost_expanded grid start exp st c i cur heap' s k :
  ucs_inv grid start exp st →
  heappop (heap st) = Some ((c, i, cur), heap') →
  cost_so_far st !! s = Some k → (k < c)%nat →
  expanded grid (cost_so_far st) s.
Proof.
  intros [Hmaps Hpend Hbound] [Hperm Hmin]%heappop_Some Hk Hlt.
  destruct (Hpend s) as [ (c' & i' & Hin) | He ]; [ by eexists | | done ].
  pose proof (entry_lt_false_cost _ _ _ _ _ _ (Hmin _ Hin)).
  rewrite (ok_heap _ _ _ Hmaps _ _ _ Hin) in Hk. injection Hk as <-. lia.
Qed.

Lemma clears_reach grid start acts :
  clears_all_dirt grid start acts →
  ∃ s, reach grid start (length acts) s ∧ dirty s = ∅.
Proof.
  intros (s & Hex & Hd). exists s. split; [ | done ].
  apply (execute_reach grid start acts 0 start s); [ constructor | done ].
Qed.

Lemma ucs_loop_empty ident grid fuel0 fuel st exp :
  heappop (heap st) = None → ucs_loop ident fuel0 fuel grid st exp = Exhausted.
Proof. intros H. destruct fuel; simpl; by rewrite H. Qed.

(** With an empty frontier every recorded state is expanded, so no goal can
    be reached. *)
Lemma frontier_exhausted grid start exp st :
  ucs_inv grid start exp st → heap st = [] →
  ∀ acts, ¬ clears_all_dirt grid start acts.
Proof.
  intros [Hmaps Hpend Hbound] Hempty acts (s & Hr & Hd)%clears_reach.
  assert (∀ s', is_Some (cost_so_far st !! s') →
                expanded grid (cost_so_far st) s') as Hall.
  { intros s' [ (? & ? & Hin) | He ]%Hpend; [ | done ].
    rewrite Hempty in Hin. by apply elem_of_nil in Hin. }
  destruct (Hall s) as [Hne _]; [ | done ].
  eapply (frontier_complete grid start (cost_so_far st) (length acts));
    [ rewrite (ok_start _ _ _ Hmaps); by eexists
    | by eapply ok_least
    | intros s1 c1 Hc1 _; apply Hall; by eexists
    | done | done ].
Qed.

Lemma ucs_loop_correct ident grid start fuel0 fuel :
  ∀ st exp,
    ucs_inv grid start exp st →
    (exp + ucs_measure grid start st < fuel0)%nat →
    (ucs_measure grid start st ≤ fuel)%nat →
    match ucs_loop ident fuel0 fuel grid st exp with
    | Solved path _ _ =>
        clears_all_dirt grid start path ∧
        ∀ acts, clears_all_dirt grid start acts → (length path ≤ length acts)%nat
    | Exhausted => ∀ acts, ¬ clears_all_dirt grid start acts
    | Raised e =>
        ∃ n s, reach grid start n s ∧ dirty s ≠ ∅ ∧
               get_neighbors s grid = Raise e
    | OutOfFuel => False
    end.
Proof.
  induction fuel as [ | fuel IH ]; intros st exp Hinv Hf0 Hf;
    (destruct (heappop (heap st)) as [ [[[c i] cur] heap'] | ] eqn:Hpop;
     [ | rewrite ucs_loop_empty by done;
         by eapply frontier_exhausted, heappop_None ]);
    pose proof (heappop_Some _ _ _ Hpop) as [Hperm%Permutation_length Hmin];
    unfold ucs_measure in Hf; simpl in Hperm; [ lia | ].
  cbn [ucs_loop]. rewrite Hpop.
  pose proof Hinv as [Hmaps Hpend Hbound].
  assert (cost_so_far st !! cur = Some c) as Hcur.
  { apply (ok_heap _ _ _ Hmaps c i).
    destruct (heappop_Some _ _ _ Hpop) as [-> _]. apply list_elem_of_here. }
  destruct (decide (dirty cur = ∅)) as [ Hd | Hd ].
  - (* a goal is popped: its recorded path is a shortest one *)
    unfold reconstruct_path.
    destruct (reconstruct_ok _ _ _ Hmaps c cur fuel0 [] Hcur)
      as (path & -> & Hlen & Hex).
    { apply Hbound in Hcur. lia. }
    rewrite app_nil_r. split; [ by exists cur | ].
    intros acts (g & Hr & Hg)%clears_reach. rewrite Hlen.
    destruct (decide (c ≤ length acts)%nat) as [ | Hshort ]; [ done | ].
    destruct (frontier_complete grid start (cost_so_far st) c)
      with (n := length acts) (s := g) as [k Hk];
      [ rewrite (ok_start _ _ _ Hmaps); by eexists | by eapply ok_least
      | intros; by eapply min_cost_expanded | done | lia | ].
    pose proof (ok_least _ _ _ Hmaps _ _ _ Hk Hr).
    destruct (min_cost_expanded _ _ _ _ _ _ _ _ g k Hinv Hpop Hk) as [Hne _];
      [ lia | done ].
  - destruct (get_neighbors cur grid) as [ nbrs | e ] eqn:Hn.
    + (* the popped state is expanded *)
      pose proof (pop_relax_inv _ _ _ _ _ _ _ _ Hinv Hpop Hd) as Hrel.
      destruct (relax_all ident _ _ _ _ _ _ Hn nbrs [] _ (fun _ H => H) Hrel)
        as [Hrel' Hm].
      cbn [app heap cost_so_far] in Hrel', Hm.
      apply (relax_done _ _ _ _ _ _ _ Hn) in Hrel'.
      pose proof (maps_ok_size _ _ _ (inv_maps _ _ _ _ Hrel')).
      pose proof (maps_ok_size _ _ _ Hmaps).
      apply IH; [ done | | ]; unfold ucs_measure in *; lia.
    + exists c, cur. split; [ by eapply ok_reach | by split ].
Qed.

Lemma ucs_inv_init ident grid start :
  ucs_inv grid start 0
    (mkUcs [(0%nat, ident 0%nat, start)] {[ start := (None, None) ]}
           {[ start := 0%nat ]} 0 1).
Proof.
  split; [ split | .. ]; cbn [heap came_from cost_so_far].
  - apply lookup_singleton_eq.
  - apply lookup_singleton_eq.
  - intros s c [<- <-]%lookup_singleton_Some. constructor.
  - intros s c n [<- <-]%lookup_singleton_Some _. lia.
  - intros c i s [= -> -> ->]%list_elem_of_singleton. apply lookup_singleton_eq.
  - by intros s c [_ ?]%lookup_singleton_Some.
  - intros s [c [<- <-]%lookup_singleton_Some]. left.
    exists 0%nat, (ident 0%nat). by apply list_elem_of_singleton.
  - intros s c [<- <-]%lookup_singleton_Some. lia.
Qed.

Lemma universe_size_pos grid start : (0 < size (universe grid start))%nat.
Proof.
  pose proof (start_in_universe grid start) as Hin.
  destruct (size (universe grid start)) eqn:Hs; [ | lia ].
  apply size_empty_inv in Hs. set_solver.
Qed.

Lemma ucs_correct ident grid start fuel :
  (enough_fuel grid start ≤ fuel)%nat →
  match ucs ident fuel start grid with
  | Solved path _ _ =>
      clears_all_dirt grid start path ∧
      ∀ acts, clears_all_dirt grid start acts → (length path ≤ length acts)%nat
  | Exhausted => ∀ acts, ¬ clears_all_dirt grid start acts
  | Raised e =>
      ∃ n s, reach grid start n s ∧ dirty s ≠ ∅ ∧
             get_neighbors s grid = Raise e
  | OutOfFuel => False
  end.
Proof.
  intros Hf. unfold ucs, enough_fuel in *.
  pose proof (universe_size_pos grid start).
  apply ucs_loop_correct; [ apply ucs_inv_init | | ];
    unfold ucs_measure; cbn [heap cost_so_far length];
    rewrite map_size_singleton; lia.
Qed.

Lemma raise_only_at_start grid start n s e :
  rectangular grid → reach grid start n s →
  get_neighbors s grid = Raise e → s = start ∧ position start = None.
Proof.
  intros Hrect Hr He.
  assert (position s = None) as Hp.
  { destruct (position s) eqn:Hp; [ | done ].
    destruct (get_neighbors_total grid s Hrect) as [? ?]; [ by eexists | congruence ]. }
  destruct Hr as [ | n s a s' _ (nbrs & Hn & Hin) ]; [ done | ].
  destruct (get_neighbors_elem _ _ _ a s' Hn) as (r & c & _ & Hiff).
  destruct (proj1 Hiff Hin) as [ (dr & dc & _ & -> & _) | (_ & _ & ->) ]; done.
Qed.

(** C1: whenever some action sequence clears all dirt from the start
    state, the action sequence that uniform-cost search returns clears all
    dirt and is no longer than any action sequence that does; on a
    rectangular grid the search does return one. *)
Theorem ucs_path_is_shortest ident grid start acts :
  clears_all_dirt grid start acts →
  ∃ n, ∀ fuel, (n ≤ fuel)%nat →
    (∀ path generated expanded,
       ucs ident fuel start grid = Solved path generated expanded →
       clears_all_dirt grid start path ∧
       ∀ acts', clears_all_dirt grid start acts' →
                (length path ≤ length acts')%nat) ∧
    (rectangular grid →
     ∃ path generated expanded,
       ucs ident fuel start grid = Solved path generated expanded).
Proof.
  intros Hclears. exists (enough_fuel grid start). intros fuel Hf.
  pose proof (ucs_correct ident grid start fuel Hf) as Hres.
  destruct (ucs ident fuel start grid) as [ path g e | | e | ].
  - split; [ by intros ? ? ? [= <- <- <-] | by exists path, g, e ].
  - by destruct (Hres acts).
  - split; [ done | ]. intros Hrect. destruct Hres as (n & s & Hr & Hd & He).
    destruct (raise_only_at_start _ _ _ _ _ Hrect Hr He) as [-> Hp].
    destruct Hclears as (s' & Hex & Hs'). destruct acts as [ | a acts ].
    + simpl in Hex. by simplify_eq.
    + simpl in Hex. unfold apply_action in Hex. by rewrite He in Hex.
  - done.
Qed.

Lemma ucs_path_is_shortest_witness :
  ∃ n, ∀ fuel, (n ≤ fuel)%nat →
    (∀ path generated expanded,
       ucs Z.of_nat fuel start_1x3 grid_1x3 = Solved path generated expanded →
       clears_all_dirt grid_1x3 start_1x3 path ∧
       ∀ acts', clears_all_dirt grid_1x3 start_1x3 acts' →
                (length path ≤ length acts')%nat) ∧
    (rectangular grid_1x3 →
     ∃ path generated expanded,
       ucs Z.of_nat fuel start_1x3 grid_1x3 = Solved path generated expanded).
Proof.
  apply (ucs_path_is_shortest Z.of_nat grid_1x3 start_1x3 [East; Vacuum]).
  exists (mkState (Some (0, 1)) ∅). split; vm_compute; reflexivity.
Defined.

(** ** Termination of depth-first search *)

Lemma dfs_push_spec nbrs visited path :
  ∀ stack gen stack' gen',
    dfs_push nbrs visited path stack gen = (stack', gen') →
    (length stack' ≤ length stack + length nbrs)%nat ∧
    ∀ s p, (s, p) ∈ stack' → (s, p) ∈ stack ∨ ∃ a, (a, s) ∈ nbrs.
Proof.
  induction nbrs as [ | [a nb] nbrs IH ]; intros stack gen stack' gen'.
  - simpl. intros [= <- <-]. split; [ lia | by left ].
  - simpl. case_decide; intros [Hlen Hin]%IH; (split; [ simpl in *; lia | ]).
    + intros s p [ ? | [a' ?] ]%Hin; [ by left | right ].
      exists a'. by apply list_elem_of_further.
    + intros s p [ [ [= -> ->] | ? ]%elem_of_cons | [a' ?] ]%Hin.
      * right. exists a. apply list_elem_of_here.
      * by left.
      * right. exists a'. by apply list_elem_of_further.
Qed.

Lemma get_neighbors_length s grid nbrs :
  get_neighbors s grid = Ok nbrs → (length nbrs ≤ 5)%nat.
Proof.
  intros H%get_neighbors_labels%sublist_length.
  by rewrite length_map in H.
Qed.

Lemma dfs_loop_terminates grid start fuel :
  ∀ stack visited gen exp,
    (∀ s p, (s, p) ∈ stack → s ∈ universe grid start) →
    visited ⊆ universe grid start →
    (dfs_measure grid start stack visited ≤ fuel)%nat →
    match dfs_loop fuel grid stack visited gen exp with
    | OutOfFuel => False
    | Raised e => ∃ s, s ∈ universe grid start ∧ get_neighbors s grid = Raise e
    | _ => True
    end.
Proof.
  induction fuel as [ | fuel IH ]; intros stack visited gen exp Hst Hvis Hf;
    destruct stack as [ | [cur path] stack ]; try done;
    unfold dfs_measure in Hf; simpl in Hf; [ lia | ].
  cbn [dfs_loop].
  assert (cur ∈ universe grid start) as Hcur by (eapply Hst, list_elem_of_here).
  assert (∀ s p, (s, p) ∈ stack → s ∈ universe grid start) as Hst'.
  { intros s p ?. eapply Hst. by apply list_elem_of_further. }
  case_decide as Hv.
  - apply IH; [ done | done | unfold dfs_measure; lia ].
  - case_decide; [ done | ].
    destruct (get_neighbors cur grid) as [ nbrs | e ] eqn:Hn; [ | by exists cur ].
    destruct (dfs_push _ _ _ _ _) as [stack' gen'] eqn:Hpush.
    apply dfs_push_spec in Hpush as [Hlen Hin].
    rewrite length_rev in Hlen. pose proof (get_neighbors_length _ _ _ Hn).
    assert ({[ cur ]} ∪ visited ⊆ universe grid start) as Hvis' by set_solver.
    pose proof (subseteq_size _ _ Hvis') as Hsize.
    rewrite size_union, size_singleton in Hsize by set_solver.
    apply IH; [ | done | ].
    + intros s p [ ? | [a Ha] ]%Hin; [ eauto | ].
      eapply universe_closed; [ exact Hcur | ].
      exists nbrs. split; [ done | ]. apply list_elem_of_In, in_rev. by apply list_elem_of_In.
    + unfold dfs_measure. rewrite size_union, size_singleton by set_solver. lia.
Qed.

Lemma universe_position grid start s :
  is_Some (position start) → s ∈ universe grid start → is_Some (position s).
Proof.
  intros Hp [ [ -> | (r & c & -> & _) ] _ ]%elem_of_universe; [ done | by eexists ].
Qed.

Lemma dfs_terminates grid start fuel :
  (enough_fuel grid start ≤ fuel)%nat →
  dfs fuel start grid ≠ OutOfFuel ∧
  (rectangular grid → is_Some (position start) → ended (dfs fuel start grid)).
Proof.
  intros Hf. unfold dfs.
  pose proof (dfs_loop_terminates grid start fuel [(start, [])] ∅ 0%nat 0%nat) as H.
  destruct (dfs_loop _ _ _ _ _ _) as [ path g e | | e | ].
  - split; [ done | ]. intros _ _. right. by eexists _, _, _.
  - split; [ done | ]. intros _ _. by left.
  - split; [ done | ]. intros Hrect Hp. destruct H as (s & Hs & He).
    + intros s p [= -> ->]%list_elem_of_singleton. apply start_in_universe.
    + set_solver.
    + unfold dfs_measure, enough_fuel in *. rewrite size_empty. simpl. lia.
    + destruct (get_neighbors_total grid s Hrect) as [? ?]; [ | congruence ].
      by eapply universe_position.
  - destruct H.
    + intros s p [= -> ->]%list_elem_of_singleton. apply start_in_universe.
    + set_solver.
    + unfold dfs_measure, enough_fuel in *. rewrite size_empty. simpl. lia.
Qed.

Lemma ucs_terminates ident grid start fuel :
  (enough_fuel grid start ≤ fuel)%nat →
  ucs ident fuel start grid ≠ OutOfFuel ∧
  (rectangular grid → is_Some (position start) → ended (ucs ident fuel start grid)).
Proof.
  intros Hf. pose proof (ucs_correct ident grid start fuel Hf) as H.
  destruct (ucs ident fuel start grid) as [ path g e | | e | ].
  - split; [ done | ]. intros _ _. right. by eexists _, _, _.
  - split; [ done | ]. intros _ _. by left.
  - split; [ done | ]. intros Hrect [p Hp]. destruct H as (n & s & Hr & _ & He).
    destruct (raise_only_at_start _ _ _ _ _ Hrect Hr He) as [_ ?]. congruence.
  - done.
Qed.

(** C9: for every world there is a number of pops after which depth-first
    and uniform-cost search have both stopped; on a rectangular grid with an
    agent position they stop by popping a goal or by emptying the
    frontier. *)
Theorem searches_terminate ident grid start :
  ∃ n, ∀ fuel, (n ≤ fuel)%nat →
    dfs fuel start grid ≠ OutOfFuel ∧
    ucs ident fuel start grid ≠ OutOfFuel ∧
    (rectangular grid → is_Some (position start) →
     ended (dfs fuel start grid) ∧ ended (ucs ident fuel start grid)).
Proof.
  exists (enough_fuel grid start). intros fuel Hf.
  destruct (dfs_terminates grid start fuel Hf) as [Hd Hd'].
  destruct (ucs_terminates ident grid start fuel Hf) as [Hu Hu'].
  split_and!; [ done | done | ]. intros Hrect Hp. split; eauto.
Qed.

Lemma searches_terminate_witness :
  ∃ n, ∀ fuel, (n ≤ fuel)%nat →
    dfs fuel start_1x3 grid_1x3 ≠ OutOfFuel ∧
    ucs Z.of_nat fuel start_1x3 grid_1x3 ≠ OutOfFuel ∧
    (rectangular grid_1x3 → is_Some (position start_1x3) →
     ended (dfs fuel start_1x3 grid_1x3) ∧
     ended (ucs Z.of_nat fuel start_1x3 grid_1x3)).
Proof. apply (searches_terminate Z.of_nat grid_1x3 start_1x3). Defined.
(** ** Determinism: fuel and identities *)

Lemma reconstruct_loop_mono fuel k cf :
  ∀ s acc r,
    reconstruct_loop fuel cf s acc = Some r →
    reconstruct_loop (fuel + k) cf s acc = Some r.
Proof.
  induction fuel as [ | fuel IH ]; intros s acc r; [ done | ].
  cbn [reconstruct_loop Nat.add].
  destruct (s ≫= (cf !!.)) as [ [ [a | ] prev ] | ]; eauto.
Qed.

Lemma ucs_loop_mono ident grid fuel0 k0 k fuel :
  ∀ st exp,
    ucs_loop ident fuel0 fuel grid st exp ≠ OutOfFuel →
    ucs_loop ident (fuel0 + k0) (fuel + k) grid st exp =
    ucs_loop ident fuel0 fuel grid st exp.
Proof.
  induction fuel as [ | fuel IH ]; intros st exp;
    (destruct (heappop (heap st)) as [ [[[c i] cur] heap'] | ] eqn:Hpop;
     [ | by rewrite !ucs_loop_empty ]).
  - simpl. by rewrite Hpop.
  - cbn [ucs_loop Nat.add]. rewrite Hpop. case_decide.
    + unfold reconstruct_path.
      destruct (reconstruct_loop fuel0 _ _ _) as [ r | ] eqn:Hr; [ | done ].
      by rewrite (reconstruct_loop_mono _ k0 _ _ _ _ Hr).
    + destruct (get_neighbors cur grid); [ apply IH | done ].
Qed.

Lemma dfs_loop_mono grid k fuel :
  ∀ stack visited gen exp,
    dfs_loop fuel grid stack visited gen exp ≠ OutOfFuel →
    dfs_loop (fuel + k) grid stack visited gen exp =
    dfs_loop fuel grid stack visited gen exp.
Proof.
  induction fuel as [ | fuel IH ]; intros stack visited gen exp;
    (destruct stack as [ | [cur path] stack ];
     [ by destruct k | ]); [ done | ].
  cbn [dfs_loop Nat.add].
  case_decide; [ apply IH | ]. case_decide; [ done | ].
  destruct (get_neighbors cur grid); [ | done ].
  destruct (dfs_push _ _ _ _ _). apply IH.
Qed.

Lemma dfs_fuel_irrelevant grid start fuel1 fuel2 :
  (enough_fuel grid start ≤ fuel1)%nat → (enough_fuel grid start ≤ fuel2)%nat →
  dfs fuel1 start grid = dfs fuel2 start grid.
Proof.
  intros H1 H2.
  destruct (dfs_terminates grid start (enough_fuel grid start)) as [Hn _]; [ done | ].
  unfold dfs in *.
  replace fuel1 with (enough_fuel grid start + (fuel1 - enough_fuel grid start))%nat by lia.
  replace fuel2 with (enough_fuel grid start + (fuel2 - enough_fuel grid start))%nat by lia.
  by rewrite !dfs_loop_mono.
Qed.

Lemma ucs_fuel_irrelevant ident grid start fuel1 fuel2 :
  (enough_fuel grid start ≤ fuel1)%nat → (enough_fuel grid start ≤ fuel2)%nat →
  ucs ident fuel1 start grid = ucs ident fuel2 start grid.
Proof.
  intros H1 H2.
  destruct (ucs_terminates ident grid start (enough_fuel grid start)) as [Hn _]; [ done | ].
  unfold ucs in *.
  replace fuel1 with (enough_fuel grid start + (fuel1 - enough_fuel grid start))%nat by lia.
  replace fuel2 with (enough_fuel grid start + (fuel2 - enough_fuel grid start))%nat by lia.
  by rewrite !ucs_loop_mono.
Qed.

Section SameOrder.

Variables ident1 ident2 : nat → Z.
Hypothesis Hsame : same_order ident1 ident2.

Lemma entry_lt_same a a' b b' :
  same_entry ident1 ident2 a a' → same_entry ident1 ident2 b b' →
  entry_lt a b = entry_lt a' b'.
Proof.
  destruct a as [[ca ia] sa], a' as [[ca' ia'] sa'],
           b as [[cb ib] sb], b' as [[cb' ib'] sb'].
  intros (? & ? & ka & ? & ?) (? & ? & kb & ? & ?). simplify_eq/=.
  do 2 f_equal. specialize (Hsame ka kb).
  destruct (Z.ltb_spec (ident1 ka) (ident1 kb)),
           (Z.ltb_spec (ident2 ka) (ident2 kb)); try done; lia.
Qed.

Lemma heappop_same h1 h2 :
  Forall2 (same_entry ident1 ident2) h1 h2 →
  match heappop h1, heappop h2 with
  | Some (m1, r1), Some (m2, r2) =>
      same_entry ident1 ident2 m1 m2 ∧ Forall2 (same_entry ident1 ident2) r1 r2
  | None, None => True
  | _, _ => False
  end.
Proof.
  induction 1 as [ | e1 e2 h1 h2 He Hh IH ]; [ done | ]. simpl.
  destruct (heappop h1) as [ [m1 r1] | ], (heappop h2) as [ [m2 r2] | ];
    try done.
  destruct IH as [Hm Hr]. rewrite (entry_lt_same _ _ _ _ Hm He).
  destruct (entry_lt m2 e2); split; try done. by constructor.
Qed.

Lemma ucs_relax_same nbrs c cur :
  ∀ st1 st2,
    same_ucs_state ident1 ident2 st1 st2 →
    same_ucs_state ident1 ident2
      (ucs_relax ident1 nbrs c cur st1) (ucs_relax ident2 nbrs c cur st2).
Proof.
  induction nbrs as [ | [a nb] nbrs IH ]; intros st1 st2 Hst; [ done | ].
  cbn [ucs_relax]. apply IH.
  destruct Hst as (Hh & Hcf & Hcost & Hg & Ho). rewrite Hcf, Hcost, Hg, Ho.
  destruct (improves _ _ _); unfold same_ucs_state; cbn; split_and!; try done.
  unfold heappush. apply Forall2_app; [ done | ].
  constructor; [ | constructor ]. split_and!; [ done | done | ]. by eexists.
Qed.

Lemma ucs_loop_same grid fuel0 fuel :
  ∀ st1 st2 exp,
    same_ucs_state ident1 ident2 st1 st2 →
    ucs_loop ident1 fuel0 fuel grid st1 exp =
    ucs_loop ident2 fuel0 fuel grid st2 exp.
Proof.
  induction fuel as [ | fuel IH ]; intros st1 st2 exp Hst;
    pose proof Hst as (Hh & Hcf & Hcost & Hg & Ho);
    apply heappop_same in Hh; cbn [ucs_loop];
    destruct (heappop (heap st1)) as [ [[[c1 i1] s1] r1] | ],
             (heappop (heap st2)) as [ [[[c2 i2] s2] r2] | ]; try done.
  destruct Hh as [ (? & ? & _) Hr ]. simplify_eq/=.
  rewrite Hcf, Hg. case_decide; [ done | ].
  destruct (get_neighbors s2 grid); [ | done ].
  apply IH, ucs_relax_same. by split_and!.
Qed.

Lemma ucs_same grid start fuel :
  ucs ident1 fuel start grid = ucs ident2 fuel start grid.
Proof.
  apply ucs_loop_same. split_and!; try done.
  constructor; [ | constructor ]. split_and!; [ done | done | ]. by eexists.
Qed.

End SameOrder.

(** C2, as the code has it: the output of depth-first search is determined
    by the world, and the output of uniform-cost search by the world and the
    order of the identities of its [State] objects: the frontier pops a least
    entry by cost, then by identity. *)
Theorem output_determined grid start ident1 ident2 :
  same_order ident1 ident2 →
  (∀ h e h', heappop h = Some (e, h') →
             ∀ e', e' ∈ h → entry_lt e' e = false) ∧
  ∃ n, ∀ fuel1 fuel2, (n ≤ fuel1)%nat → (n ≤ fuel2)%nat →
    dfs fuel1 start grid = dfs fuel2 start grid ∧
    ucs ident1 fuel1 start grid = ucs ident2 fuel2 start grid ∧
    printed (dfs fuel1 start grid) = printed (dfs fuel2 start grid) ∧
    printed (ucs ident1 fuel1 start grid) = printed (ucs ident2 fuel2 start grid).
Proof.
  intros Hsame. split; [ intros h e h' Hp; by apply heappop_Some in Hp as [_ ?] | ].
  exists (enough_fuel grid start). intros fuel1 fuel2 H1 H2.
  assert (dfs fuel1 start grid = dfs fuel2 start grid) as Hd
    by by apply dfs_fuel_irrelevant.
  assert (ucs ident1 fuel1 start grid = ucs ident2 fuel2 start grid) as Hu.
  { rewrite (ucs_fuel_irrelevant ident1 grid start fuel1 fuel2) by done.
    by apply ucs_same. }
  by rewrite Hd, Hu.
Qed.

Lemma output_determined_witness :
  (∀ h e h', heappop h = Some (e, h') →
             ∀ e', e' ∈ h → entry_lt e' e = false) ∧
  ∃ n, ∀ fuel1 fuel2, (n ≤ fuel1)%nat → (n ≤ fuel2)%nat →
    dfs fuel1 start_2x2 grid_2x2 = dfs fuel2 start_2x2 grid_2x2 ∧
    ucs Z.of_nat fuel1 start_2x2 grid_2x2 =
      ucs (fun k => 2 * Z.of_nat k + 7) fuel2 start_2x2 grid_2x2 ∧
    printed (dfs fuel1 start_2x2 grid_2x2) = printed (dfs fuel2 start_2x2 grid_2x2) ∧
    printed (ucs Z.of_nat fuel1 start_2x2 grid_2x2) =
      printed (ucs (fun k => 2 * Z.of_nat k + 7) fuel2 start_2x2 grid_2x2).
Proof.
  apply (output_determined grid_2x2 start_2x2 Z.of_nat (fun k => 2 * Z.of_nat k + 7)).
  intros i j. lia.
Defined.

(** C2 as stated fails: on the same world, two assignments of identities
    make uniform-cost search print different action lines, and with
    identities that decrease the entry pushed second is popped first. *)
Lemma ucs_output_depends_on_identities :
  printed (ucs Z.of_nat 5 start_2x2 grid_2x2) =
    ["S"; "E"; "V"; "4 nodes generated"; "5 nodes expanded"]%string ∧
  printed (ucs descending 5 start_2x2 grid_2x2) =
    ["E"; "S"; "V"; "4 nodes generated"; "5 nodes expanded"]%string ∧
  heappop (heappush (heappush [] (1%nat, descending 1, start_1x3))
                    (1%nat, descending 2, on_dirt_1x3)) =
    Some ((1%nat, descending 2, on_dirt_1x3), [(1%nat, descending 1, start_1x3)]).
Proof. split_and!; vm_compute; reflexivity. Qed.
(** * Further properties *)

(** ** Depth-first search: what it finds *)

Lemma dfs_push_full nbrs visited path :
  ∀ stack gen stack' gen',
    dfs_push nbrs visited path stack gen = (stack', gen') →
    (gen ≤ gen')%nat ∧ (gen' ≤ gen + length nbrs)%nat ∧
    (∀ x, x ∈ stack → x ∈ stack') ∧
    (∀ s q, (s, q) ∈ stack' →
       (s, q) ∈ stack ∨
       ∃ a, (a, s) ∈ nbrs ∧ q = (path ++ [a]) ∧ (s ∉ visited) ∧ (gen < gen')%nat) ∧
    (∀ a s, (a, s) ∈ nbrs → s ∈ visited ∨ ∃ q, (s, q) ∈ stack').
Proof.
  induction nbrs as [ | [a nb] nbrs IH ]; intros stack gen stack' gen'.
  - simpl. intros [= <- <-]. split_and!; [ lia | lia | done | by left | ].
    by intros a s ?%elem_of_nil.
  - simpl. case_decide as Hv; intros (Hgen & Hgen' & Hkeep & Hnew & Hall)%IH.
    + split_and!; [ lia | lia | done | | ].
      * intros s q [ ? | (a' & ? & ? & ? & ?) ]%Hnew; [ by left | right ].
        exists a'. split_and!; try done. by apply list_elem_of_further.
      * intros a' s [ [= -> ->] | ? ]%elem_of_cons; [ by left | eauto ].
    + split_and!; [ lia | lia | | | ].
      * intros x Hx. by apply Hkeep, list_elem_of_further.
      * intros s q [ [ [= -> ->] | ? ]%elem_of_cons | (a' & ? & ? & ? & ?) ]%Hnew.
        -- right. exists a. split_and!; [ apply list_elem_of_here | done | done | lia ].
        -- by left.
        -- right. exists a'.
           split_and!; [ by apply list_elem_of_further | done | done | lia ].
      * intros a' s [ [= -> ->] | ? ]%elem_of_cons; [ | eauto ].
        right. exists (path ++ [a]). apply Hkeep, list_elem_of_here.
Qed.

Lemma elem_of_rev_iff {A} (x : A) (l : list A) : x ∈ rev l ↔ x ∈ l.
Proof. rewrite !list_elem_of_In. symmetry. apply in_rev. Qed.

Lemma execute_snoc grid start p s a s' :
  execute grid start p = Some s → edge grid s a s' →
  execute grid start (p ++ [a]) = Some s'.
Proof.
  intros Hp He. rewrite execute_app, Hp. simpl.
  apply apply_action_edge in He. by rewrite He.
Qed.

Lemma execute_in_universe grid start p s :
  execute grid start p = Some s → s ∈ universe grid start.
Proof.
  intros Hp. eapply reach_universe.
  apply (execute_reach grid start p 0 start s); [ constructor | done ].
Qed.

Lemma dfs_inv_init grid start : dfs_inv grid start [(start, [])] ∅ 0 0.
Proof.
  split.
  - intros s p [= -> ->]%list_elem_of_singleton. simpl. split_and!; [ done | lia | lia ].
  - intros v ?. set_solver.
  - right. exists []. by apply list_elem_of_singleton.
  - by rewrite size_empty.
  - lia.
  - set_solver.
Qed.

(** With an empty stack the visited states are closed under successors and
    hold no goal. *)
Lemma stack_exhausted grid start visited gen exp :
  dfs_inv grid start [] visited gen exp →
  ∀ acts, ¬ clears_all_dirt grid start acts.
Proof.
  intros [_ Hvis Hstart _ _ _] acts (s & Hr & Hd)%clears_reach.
  assert (∀ n s', reach grid start n s' → s' ∈ visited) as Hall.
  { induction 1 as [ | n s1 a s2 _ IH He ].
    - destruct Hstart as [ ? | [p Hp] ]; [ done | by apply elem_of_nil in Hp ].
    - destruct (Hvis _ IH) as (_ & nbrs & Hn & Hsucc).
      destruct (Hsucc a s2) as [ ? | [p Hp] ];
        [ by eapply edge_functional | done | by apply elem_of_nil in Hp ]. }
  by destruct (Hvis s (Hall _ _ Hr)).
Qed.

Lemma dfs_loop_correct grid start fuel :
  ∀ stack visited gen exp,
    dfs_inv grid start stack visited gen exp →
    match dfs_loop fuel grid stack visited gen exp with
    | Solved path g e =>
        clears_all_dirt grid start path ∧
        (length path < e)%nat ∧ (length path ≤ g)%nat ∧
        (g ≤ 5 * (e - 1))%nat ∧ (e ≤ size (universe grid start))%nat
    | Exhausted => ∀ acts, ¬ clears_all_dirt grid start acts
    | Raised e =>
        ∃ n s, reach grid start n s ∧ dirty s ≠ ∅ ∧
               get_neighbors s grid = Raise e
    | OutOfFuel => True
    end.
Proof.
  induction fuel as [ | fuel IH ]; intros stack visited gen exp Hinv;
    (destruct stack as [ | [cur path] stack ];
     [ simpl; by apply (stack_exhausted _ _ visited gen exp) | ]); [ done | ].
  cbn [dfs_loop].
  destruct Hinv as [Hpaths Hvis Hstart Hexp Hgen Huni].
  destruct (Hpaths cur path) as (Hex & Hlg & Hle); [ apply list_elem_of_here | ].
  assert (∀ s p, (s, p) ∈ (cur, path) :: stack → s = cur ∨ (s, p) ∈ stack) as Hsplit.
  { intros s p [ [= -> ->] | ? ]%elem_of_cons; eauto. }
  case_decide as Hv.
  - (* the popped state was visited before: the entry is dropped *)
    apply IH. split; try done.
    + intros s p ?. by apply Hpaths, list_elem_of_further.
    + intros v Hin. destruct (Hvis v Hin) as (Hd & nbrs & Hn & Hsucc).
      split; [ done | ]. exists nbrs. split; [ done | ].
      intros a s' [ ? | [p [ -> | ? ]%Hsplit] ]%Hsucc; eauto.
    + destruct Hstart as [ ? | [p [ -> | ? ]%Hsplit] ]; eauto.
  - assert (cur ∈ universe grid start) as Hcur by by eapply execute_in_universe.
    assert (size ({[ cur ]} ∪ visited) = S (size visited)) as Hsize.
    { rewrite size_union, size_singleton by set_solver. done. }
    assert ({[ cur ]} ∪ visited ⊆ universe grid start) as Huni' by set_solver.
    case_decide as Hgoal.
    + (* a goal *)
      pose proof (subseteq_size _ _ Huni'). split_and!; try lia.
      by exists cur.
    + destruct (get_neighbors cur grid) as [ nbrs | e ] eqn:Hn.
      * destruct (dfs_push _ _ _ _ _) as [stack' gen'] eqn:Hpush.
        apply dfs_push_full in Hpush as (Hg & Hg' & Hkeep & Hnew & Hall).
        rewrite length_rev in Hg'. pose proof (get_neighbors_length _ _ _ Hn).
        apply IH. split.
        -- intros s p [ Hold | (a & Ha & -> & _ & ?) ]%Hnew.
           ++ destruct (Hpaths s p) as (? & ? & ?);
                [ by apply list_elem_of_further | ]. split_and!; [ done | lia | lia ].
           ++ split_and!; [ | rewrite length_app; simpl; lia
                            | rewrite length_app; simpl; lia ].
              rewrite elem_of_rev_iff in Ha.
              apply (execute_snoc _ _ path cur a s Hex). by exists nbrs.
        -- intros v [ ->%elem_of_singleton | Hin ]%elem_of_union.
           ++ split; [ done | ]. exists nbrs. split; [ done | ].
              intros a s' Hin. apply (Hall a s'). by rewrite elem_of_rev_iff.
           ++ destruct (Hvis v Hin) as (Hd & nbrs' & Hn' & Hsucc).
              split; [ done | ]. exists nbrs'. split; [ done | ].
              intros a s' [ ? | [p [ -> | ? ]%Hsplit] ]%Hsucc;
                [ left; set_solver | left; set_solver | right; eauto ].
        -- destruct Hstart as [ ? | [p [ -> | ? ]%Hsplit] ];
             [ left; set_solver | left; set_solver | right; eauto ].
        -- lia.
        -- lia.
        -- done.
      * exists (length path), cur. split_and!; [ | done | done ].
        apply (execute_reach grid start path 0 start cur); [ constructor | done ].
Qed.

Lemma dfs_stable grid start fuel k :
  dfs fuel start grid ≠ OutOfFuel →
  dfs (fuel + k) start grid = dfs fuel start grid.
Proof. apply dfs_loop_mono. Qed.

Lemma ucs_stable ident grid start fuel k :
  ucs ident fuel start grid ≠ OutOfFuel →
  ucs ident (fuel + k) start grid = ucs ident fuel start grid.
Proof. apply ucs_loop_mono. Qed.

(** What [ucs_correct] says of enough fuel holds of every run that ended. *)
Lemma ucs_correct_any_fuel ident grid start fuel :
  match ucs ident fuel start grid with
  | Solved path _ _ =>
      clears_all_dirt grid start path ∧
      ∀ acts, clears_all_dirt grid start acts → (length path ≤ length acts)%nat
  | Exhausted => ∀ acts, ¬ clears_all_dirt grid start acts
  | Raised e =>
      ∃ n s, reach grid start n s ∧ dirty s ≠ ∅ ∧
             get_neighbors s grid = Raise e
  | OutOfFuel => True
  end.
Proof.
  pose proof (ucs_correct ident grid start (fuel + enough_fuel grid start)) as H.
  destruct (ucs ident fuel start grid) eqn:Hr; [ | | | done ];
    rewrite (ucs_stable ident grid start fuel) in H by (rewrite Hr; discriminate);
    rewrite Hr in H; apply H; lia.
Qed.

Lemma dfs_correct grid start fuel :
  match dfs fuel start grid with
  | Solved path g e =>
      clears_all_dirt grid start path ∧
      (length path < e)%nat ∧ (length path ≤ g)%nat ∧
      (g ≤ 5 * (e - 1))%nat ∧ (e ≤ size (universe grid start))%nat
  | Exhausted => ∀ acts, ¬ clears_all_dirt grid start acts
  | Raised e =>
      ∃ n s, reach grid start n s ∧ dirty s ≠ ∅ ∧
             get_neighbors s grid = Raise e
  | OutOfFuel => True
  end.
Proof. apply dfs_loop_correct, dfs_inv_init. Qed.

(** On a rectangular grid, a search that raised leaves no plan. *)
Lemma raise_means_no_plan grid start n s e acts :
  rectangular grid → reach grid start n s → dirty s ≠ ∅ →
  get_neighbors s grid = Raise e → ¬ clears_all_dirt grid start acts.
Proof.
  intros Hrect Hr Hd He (s' & Hex & Hs').
  destruct (raise_only_at_start _ _ _ _ _ Hrect Hr He) as [-> Hp].
  destruct acts as [ | a acts ]; simpl in Hex.
  - by simplify_eq.
  - unfold apply_action in Hex. by rewrite He in Hex.
Qed.

(** X1: the action sequence that depth-first search prints can be carried
    out from the start state, and clears all dirt. *)
Theorem dfs_plan_clears_all_dirt fuel start grid path generated expanded :
  dfs fuel start grid = Solved path generated expanded →
  clears_all_dirt grid start path.
Proof.
  intros Hr. pose proof (dfs_correct grid start fuel) as H.
  rewrite Hr in H. by destruct H.
Qed.

Lemma dfs_plan_clears_all_dirt_witness :
  clears_all_dirt grid_2x2 start_2x2 [South; East; Vacuum].
Proof.
  apply (dfs_plan_clears_all_dirt 5 start_2x2 grid_2x2 [South; East; Vacuum] 5 5).
  vm_compute. reflexivity.
Defined.

(** X2: on a rectangular grid, depth-first search returns a plan whenever
    some action sequence clears all dirt. *)
Theorem dfs_finds_a_plan grid start acts fuel :
  rectangular grid → clears_all_dirt grid start acts →
  (enough_fuel grid start ≤ fuel)%nat →
  ∃ path generated expanded,
    dfs fuel start grid = Solved path generated expanded.
Proof.
  intros Hrect Hclears Hf.
  destruct (dfs_terminates grid start fuel Hf) as [Hne _].
  pose proof (dfs_correct grid start fuel) as H.
  destruct (dfs fuel start grid) as [ path g e | | e | ].
  - by exists path, g, e.
  - by destruct (H acts).
  - destruct H as (n & s & Hr & Hd & He).
    by destruct (raise_means_no_plan grid start n s e acts).
  - done.
Qed.

Lemma dfs_finds_a_plan_witness :
  ∃ path generated expanded,
    dfs (enough_fuel grid_1x3 start_1x3) start_1x3 grid_1x3 =
    Solved path generated expanded.
Proof.
  apply (dfs_finds_a_plan grid_1x3 start_1x3 [East; Vacuum]).
  - intros row0 row [= <-] ->%list_elem_of_singleton. reflexivity.
  - exists (mkState (Some (0, 1)) ∅). split; vm_compute; reflexivity.
  - lia.
Defined.

(** X3: when either search ends with an empty frontier, no action sequence
    clears all dirt from the start state. *)
Theorem empty_frontier_means_no_plan ident fuel start grid acts :
  dfs fuel start grid = Exhausted ∨ ucs ident fuel start grid = Exhausted →
  ¬ clears_all_dirt grid start acts.
Proof.
  intros [ Hr | Hr ].
  - pose proof (dfs_correct grid start fuel) as H. rewrite Hr in H. apply H.
  - pose proof (ucs_correct_any_fuel ident grid start fuel) as H.
    rewrite Hr in H. apply H.
Qed.

Lemma empty_frontier_means_no_plan_witness :
  ¬ clears_all_dirt [[ch_under; ch_hash; ch_star]]
      (mkState (Some (0, 0)) {[ (0, 2) ]}) [East; East; Vacuum].
Proof.
  apply (empty_frontier_means_no_plan Z.of_nat 5).
  left. vm_compute. reflexivity.
Defined.

(** X4: the plan of uniform-cost search is never longer than the plan of
    depth-first search on the same world. *)
Theorem ucs_no_longer_than_dfs ident fuel1 fuel2 start grid
    path1 generated1 expanded1 path2 generated2 expanded2 :
  dfs fuel1 start grid = Solved path1 generated1 expanded1 →
  ucs ident fuel2 start grid = Solved path2 generated2 expanded2 →
  (length path2 ≤ length path1)%nat.
Proof.
  intros Hd Hu.
  pose proof (dfs_correct grid start fuel1) as H1. rewrite Hd in H1.
  pose proof (ucs_correct_any_fuel ident grid start fuel2) as H2.
  rewrite Hu in H2. apply H2, H1.
Qed.

Lemma ucs_no_longer_than_dfs_witness :
  (length [East; Vacuum] ≤ length [South; East; North; Vacuum])%nat.
Proof.
  apply (ucs_no_longer_than_dfs Z.of_nat 5 5 start_detour grid_detour
           [South; East; North; Vacuum] 5 5 [East; Vacuum] 4 5);
    vm_compute; reflexivity.
Defined.

(** ** The counters *)

Lemma size_list_to_set_le (l : list State) :
  (size (list_to_set l : gset State) ≤ length l)%nat.
Proof.
  induction l as [ | x l IH ].
  - change (size (∅ : gset State) ≤ 0)%nat. by rewrite size_empty.
  - change (size ({[ x ]} ∪ list_to_set l : gset State) ≤ S (length l))%nat.
    rewrite size_union_alt, size_singleton.
    assert (list_to_set l ∖ {[ x ]} ⊆ (list_to_set l : gset State)) as Hsub
      by set_solver.
    apply subseteq_size in Hsub. lia.
Qed.

Lemma length_bind_const {A B} (f : A → list B) k (l : list A) :
  (∀ x, length (f x) = k) → length (l ≫= f) = (length l * k)%nat.
Proof.
  intros Hf. induction l as [ | x l IH ]; [ done | ].
  cbn. rewrite length_app, Hf. cbn in IH. rewrite IH. lia.
Qed.

Lemma length_subsets l : length (subsets l) = (2 ^ length l)%nat.
Proof.
  induction l as [ | x l IH ]; [ done | ].
  cbn [subsets length]. rewrite length_app, length_map, IH, Nat.pow_succ_r'. lia.
Qed.

Lemma length_cells grid : length (cells grid) = (length grid * width grid)%nat.
Proof.
  unfold cells.
  rewrite (length_bind_const _ (width grid)).
  - by rewrite length_seqZ, Nat2Z.id.
  - intros r. rewrite (length_bind_const _ 1%nat); [ | done ].
    rewrite length_seqZ, Nat2Z.id. lia.
Qed.

Lemma universe_bound grid start :
  (size (universe grid start) ≤ state_bound grid start)%nat.
Proof.
  unfold universe, state_bound.
  etransitivity; [ apply size_list_to_set_le | ].
  rewrite (length_bind_const _ (2 ^ size (dirty start))%nat).
  - cbn [length]. rewrite length_map, length_cells. lia.
  - intros p. rewrite (length_bind_const _ 1%nat); [ | done ].
    rewrite length_subsets. unfold size, set_size. simpl. lia.
Qed.

(** X5: when depth-first search prints a plan, the plan is shorter than the
    number of nodes expanded and no longer than the number generated; at
    most five nodes were generated for each node expanded before the goal;
    and no more nodes were expanded than the world has states. *)
Theorem dfs_counters fuel start grid path generated expanded :
  dfs fuel start grid = Solved path generated expanded →
  (length path < expanded)%nat ∧ (length path ≤ generated)%nat ∧
  (generated ≤ 5 * (expanded - 1))%nat ∧
  (expanded ≤ state_bound grid start)%nat.
Proof.
  intros Hr. pose proof (dfs_correct grid start fuel) as H. rewrite Hr in H.
  pose proof (universe_bound grid start). destruct H as (_ & ? & ? & ? & ?).
  split_and!; lia.
Qed.

Lemma dfs_counters_witness :
  (length [South; East; North; Vacuum] < 5)%nat ∧
  (length [South; East; North; Vacuum] ≤ 5)%nat ∧
  (5 ≤ 5 * (5 - 1))%nat ∧
  (5 ≤ state_bound grid_detour start_detour)%nat.
Proof.
  apply (dfs_counters 5 start_detour grid_detour). vm_compute. reflexivity.
Defined.

Lemma ucs_relax_generated ident nbrs c cur :
  ∀ st,
    (length (heap (ucs_relax ident nbrs c cur st)) + nodes_generated st =
     length (heap st) + nodes_generated (ucs_relax ident nbrs c cur st))%nat.
Proof.
  induction nbrs as [ | [a nb] nbrs IH ]; intros st; [ done | ].
  cbn [ucs_relax].
  match goal with
  | |- context [ucs_relax ident nbrs c cur ?s] => pose proof (IH s) as H
  end.
  destruct (improves _ _ _); cbn [heap nodes_generated] in H;
    unfold heappush in *; rewrite ?length_app in H; simpl in H; lia.
Qed.

Lemma reconstruct_length grid start st fuel0 c s path :
  maps_ok grid start st → cost_so_far st !! s = Some c →
  reconstruct_path fuel0 (came_from st) s = Some (Ok path) →
  length path = c.
Proof.
  intros Hmaps Hc Hrec. unfold reconstruct_path in Hrec.
  destruct (reconstruct_ok _ _ _ Hmaps c s (S c) [] Hc) as (acts & Hacts & Hlen & _);
    [ lia | ].
  rewrite app_nil_r in Hacts.
  destruct (decide (fuel0 ≤ S c)%nat).
  - apply (reconstruct_loop_mono _ (S c - fuel0)) in Hrec.
    replace (fuel0 + (S c - fuel0))%nat with (S c) in Hrec by lia. congruence.
  - apply (reconstruct_loop_mono _ (fuel0 - S c)) in Hacts.
    replace (S c + (fuel0 - S c))%nat with fuel0 in Hacts by lia. congruence.
Qed.

Lemma ucs_loop_counts ident grid start fuel0 fuel :
  ∀ st exp,
    ucs_inv grid start exp st → ucs_counts exp st →
    match ucs_loop ident fuel0 fuel grid st exp with
    | Solved path g e =>
        (length path < e)%nat ∧ (e ≤ g + 1)%nat ∧
        (g + 1 ≤ size (universe grid start))%nat
    | _ => True
    end.
Proof.
  induction fuel as [ | fuel IH ]; intros st exp Hinv [Hrec Hpend];
    cbn [ucs_loop];
    destruct (heappop (heap st)) as [ [[[c i] cur] heap'] | ] eqn:Hpop;
    try done.
  pose proof (heappop_Some _ _ _ Hpop) as [Hperm%Permutation_length Hmin].
  simpl in Hperm. pose proof Hinv as [Hmaps Hpending Hbound].
  assert (cost_so_far st !! cur = Some c) as Hcur.
  { apply (ok_heap _ _ _ Hmaps c i).
    destruct (heappop_Some _ _ _ Hpop) as [-> _]. apply list_elem_of_here. }
  case_decide as Hd.
  - destruct (reconstruct_path _ _ _) as [ [ path | ] | ] eqn:Hp; try done.
    rewrite (reconstruct_length _ _ _ _ _ _ _ Hmaps Hcur Hp).
    pose proof (Hbound _ _ Hcur). pose proof (maps_ok_size _ _ _ Hmaps).
    split_and!; lia.
  - destruct (get_neighbors cur grid) as [ nbrs | ] eqn:Hn; [ | done ].
    pose proof (pop_relax_inv _ _ _ _ _ _ _ _ Hinv Hpop Hd) as Hrel.
    destruct (relax_all ident _ _ _ _ _ _ Hn nbrs [] _ (fun _ H => H) Hrel)
      as [Hrel' Hm].
    pose proof (ucs_relax_generated ident nbrs c cur
                  (mkUcs heap' (came_from st) (cost_so_far st)
                         (nodes_generated st) (next_obj st))) as Hg.
    cbn [app heap cost_so_far nodes_generated] in Hrel', Hm, Hg.
    apply (relax_done _ _ _ _ _ _ _ Hn) in Hrel'.
    apply IH; [ done | ]. split; lia.
Qed.

(** X6: when uniform-cost search prints a plan, the plan is shorter than
    the number of nodes expanded; every node expanded is the start or was
    generated before; and every state is generated at most once, so that
    fewer nodes are generated than the world has states. *)
Theorem ucs_counters ident fuel start grid path generated expanded :
  ucs ident fuel start grid = Solved path generated expanded →
  (length path < expanded)%nat ∧ (expanded ≤ generated + 1)%nat ∧
  (generated < state_bound grid start)%nat.
Proof.
  intros Hr.
  pose proof (ucs_loop_counts ident grid start fuel fuel _ 0%nat
                (ucs_inv_init ident grid start)) as H.
  unfold ucs in Hr. rewrite Hr in H.
  pose proof (universe_bound grid start).
  destruct H as (? & ? & ?); [ | split_and!; lia ].
  split; cbn [heap cost_so_far nodes_generated length];
    [ apply map_size_singleton | done ].
Qed.

Lemma ucs_counters_witness :
  (length [East; Vacuum] < 5)%nat ∧ (5 ≤ 4 + 1)%nat ∧
  (4 < state_bound grid_detour start_detour)%nat.
Proof.
  apply (ucs_counters Z.of_nat 5 start_detour grid_detour). vm_compute. reflexivity.
Defined.

(** ** Path reconstruction *)

Lemma reconstruct_loop_chain fuel cf :
  ∀ s acc acts,
    chain cf s acts → (length acts < fuel)%nat →
    reconstruct_loop fuel cf (Some s) acc = Some (Ok (acts ++ rev acc)).
Proof.
  induction fuel as [ | fuel IH ]; intros s acc acts Hc Hf; [ lia | ].
  cbn [reconstruct_loop mbind option_bind].
  destruct Hc as [ s prev Hs | s a p acts Hs Hc ]; rewrite Hs; [ done | ].
  rewrite length_app in Hf. simpl in Hf.
  rewrite (IH p (acc ++ [a]) acts Hc) by lia.
  by rewrite rev_unit, <- app_assoc.
Qed.

Lemma reconstruct_loop_Ok fuel cf :
  ∀ s acc r,
    reconstruct_loop fuel cf s acc = Some (Ok r) →
    ∃ s' acts, s = Some s' ∧ chain cf s' acts ∧ r = acts ++ rev acc.
Proof.
  induction fuel as [ | fuel IH ]; intros s acc r; [ done | ].
  cbn [reconstruct_loop].
  destruct s as [ s | ]; cbn [mbind option_bind]; [ | done ].
  destruct (cf !! s) as [ [ [a | ] prev ] | ] eqn:Hs; [ | | done ].
  - intros (p & acts & -> & Hc & ->)%IH. exists s, (acts ++ [a]).
    split_and!; [ done | by eapply chain_link | ].
    by rewrite rev_unit, <- app_assoc.
  - intros [= <-]. exists s, []. split_and!; [ done | by eapply chain_root | done ].
Qed.

Lemma reconstruct_loop_no_entry cf n x y :
  walk cf n x y → no_entry cf y →
  ∀ fuel acc, (n < fuel)%nat →
    reconstruct_loop fuel cf x acc = Some (Raise KeyError).
Proof.
  intros Hw Hy. induction Hw as [ x | n s a prev y Hs Hw IH ];
    intros [ | fuel ] acc Hf; try lia.
  - cbn [reconstruct_loop]. unfold no_entry in Hy. by rewrite Hy.
  - cbn [reconstruct_loop mbind option_bind]. rewrite Hs.
    apply IH; [ done | lia ].
Qed.

Lemma reconstruct_loop_Raise fuel cf :
  ∀ x acc e,
    reconstruct_loop fuel cf x acc = Some (Raise e) →
    e = KeyError ∧
    ∃ n y, (n < fuel)%nat ∧ walk cf n x y ∧ no_entry cf y.
Proof.
  induction fuel as [ | fuel IH ]; intros x acc e; [ done | ].
  cbn [reconstruct_loop].
  destruct (x ≫= (cf !!.)) as [ [ [a | ] prev ] | ] eqn:Hx; [ | done | ].
  - intros (-> & n & y & Hn & Hw & Hy)%IH. split; [ done | ].
    destruct x as [ s | ]; [ | done ].
    exists (S n), y. split_and!; [ lia | by eapply walk_step | done ].
  - intros [= <-]. split; [ done | ].
    exists 0%nat, x. split_and!; [ lia | constructor | done ].
Qed.

Lemma reconstruct_loop_None fuel cf :
  ∀ x acc, reconstruct_loop fuel cf x acc = None ↔ ∃ y, walk cf fuel x y.
Proof.
  induction fuel as [ | fuel IH ]; intros x acc.
  - split; [ intros _; exists x; constructor | done ].
  - cbn [reconstruct_loop].
    destruct (x ≫= (cf !!.)) as [ [ [a | ] prev ] | ] eqn:Hx.
    + rewrite IH. destruct x as [ s | ]; [ | done ]. simpl in Hx. split.
      * intros [ y Hw ]. exists y. by eapply walk_step.
      * intros [ y Hw ]. inversion Hw; subst. exists y. congruence.
    + split; [ done | ]. intros [ y Hw ]. inversion Hw; subst.
      simpl in Hx. congruence.
    + split; [ done | ]. intros [ y Hw ]. inversion Hw; subst.
      simpl in Hx. congruence.
Qed.

Lemma walk_app cf n m x y z :
  walk cf n x y → walk cf m y z → walk cf (n + m) x z.
Proof.
  intros Hw Hm. induction Hw as [ x | n s a prev y Hs Hw IH ]; [ done | ].
  simpl. eapply walk_step; [ done | by apply IH ].
Qed.

Lemma walk_prefix cf n x y :
  walk cf n x y → ∀ m, (m ≤ n)%nat → ∃ z, walk cf m x z.
Proof.
  induction 1 as [ x | n s a prev y Hs Hw IH ]; intros m Hm.
  - replace m with 0%nat by lia. exists x. constructor.
  - destruct m as [ | m ]; [ exists (Some s); constructor | ].
    destruct (IH m) as [ z Hz ]; [ lia | ].
    exists z. by eapply walk_step.
Qed.

Lemma walk_cycle cf j p :
  walk cf (S j) p p → ∀ i, walk cf (i * S j) p p.
Proof.
  intros Hc. induction i as [ | i IH ]; [ constructor | ].
  simpl. by apply (walk_app cf (S j) (i * S j) p p p).
Qed.

(** X7: [reconstruct_path] returns exactly the actions along the
    predecessor links from the given state back to an entry without action,
    in execution order.  It raises [KeyError], and nothing else, exactly when
    the links lead, after any number of steps, to a state that is not a key
    of [came_from] or to a predecessor of [None].  It never returns exactly
    when the links can be followed without end, as they can whenever they
    lead into a cycle of any length. *)
Theorem reconstruct_path_follows_links came_from s :
  (∀ fuel acts, chain came_from s acts → (length acts < fuel)%nat →
     reconstruct_path fuel came_from s = Some (Ok acts)) ∧
  (∀ fuel acts, reconstruct_path fuel came_from s = Some (Ok acts) →
     chain came_from s acts) ∧
  (∀ fuel n y, walk came_from n (Some s) y → no_entry came_from y →
     (n < fuel)%nat →
     reconstruct_path fuel came_from s = Some (Raise KeyError)) ∧
  (∀ fuel e, reconstruct_path fuel came_from s = Some (Raise e) →
     e = KeyError ∧
     ∃ n y, (n < fuel)%nat ∧ walk came_from n (Some s) y ∧
            no_entry came_from y) ∧
  (∀ fuel, reconstruct_path fuel came_from s = None ↔
           ∃ y, walk came_from fuel (Some s) y) ∧
  (∀ k j p, walk came_from k (Some s) p → walk came_from (S j) p p →
     ∀ fuel, reconstruct_path fuel came_from s = None).
Proof.
  unfold reconstruct_path. split_and!.
  - intros fuel acts Hc Hf.
    rewrite (reconstruct_loop_chain fuel came_from s [] acts Hc Hf).
    by rewrite app_nil_r.
  - intros fuel acts (s' & acts' & [= <-] & Hc & ->)%reconstruct_loop_Ok.
    by rewrite app_nil_r.
  - intros fuel n y Hw Hy Hf. by eapply reconstruct_loop_no_entry.
  - intros fuel e. apply reconstruct_loop_Raise.
  - intros fuel. apply reconstruct_loop_None.
  - intros k j p Hk Hc fuel. apply reconstruct_loop_None.
    apply (walk_prefix came_from (k + fuel * S j) (Some s) p); [ | nia ].
    eapply walk_app; [ done | by apply walk_cycle ].
Qed.

Lemma reconstruct_path_follows_links_witness :
  reconstruct_path 3
    (<[on_dirt_1x3 := (Some East, Some start_1x3)]>
       {[ start_1x3 := (None, None) ]}) on_dirt_1x3 = Some (Ok [East]) ∧
  reconstruct_path 4 cf_dangling clean_1x3 = Some (Raise KeyError) ∧
  reconstruct_path 7 cf_cycle clean_1x3 = None.
Proof.
  split_and!.
  - apply (reconstruct_path_follows_links
             (<[on_dirt_1x3 := (Some East, Some start_1x3)]>
                {[ start_1x3 := (None, None) ]}) on_dirt_1x3).
    + apply (chain_link _ on_dirt_1x3 East start_1x3 []).
      * vm_compute. reflexivity.
      * apply (chain_root _ start_1x3 None). vm_compute. reflexivity.
    + simpl. lia.
  - apply (reconstruct_path_follows_links cf_dangling clean_1x3)
      with (n := 2%nat) (y := Some start_1x3).
    + apply (walk_step _ 1 clean_1x3 Vacuum (Some on_dirt_1x3));
        [ vm_compute; reflexivity | ].
      apply (walk_step _ 0 on_dirt_1x3 East (Some start_1x3));
        [ vm_compute; reflexivity | ].
      apply walk_here.
    + vm_compute. reflexivity.
    + lia.
  - apply (reconstruct_path_follows_links cf_cycle clean_1x3)
      with (k := 1%nat) (j := 1%nat) (p := Some on_dirt_1x3).
    + apply (walk_step _ 0 clean_1x3 Vacuum (Some on_dirt_1x3));
        [ vm_compute; reflexivity | ].
      apply walk_here.
    + apply (walk_step _ 1 on_dirt_1x3 East (Some start_1x3));
        [ vm_compute; reflexivity | ].
      apply (walk_step _ 0 start_1x3 West (Some on_dirt_1x3));
        [ vm_compute; reflexivity | ].
      apply walk_here.
Defined.

(** ** Dirt along an action sequence *)

Lemma edge_dirty grid s a s' :
  edge grid s a s' →
  (a = Vacuum ∧ ∃ p, p ∈ dirty s ∧ dirty s' = dirty s ∖ {[ p ]}) ∨
  (a ≠ Vacuum ∧ dirty s' = dirty s).
Proof.
  intros (nbrs & Hn & Hin).
  destruct (get_neighbors_elem _ _ _ a s' Hn) as (r & c & _ & Hiff).
  destruct (proj1 Hiff Hin) as [ (dr & dc & Hm & -> & _) | (-> & Hd & ->) ].
  - right. split; [ | done ].
    apply elem_of_MOVES in Hm. naive_solver.
  - left. split; [ done | ]. by exists (r, c).
Qed.

Lemma vacuums_cons a acts :
  vacuums (a :: acts) =
  ((if decide (a = Vacuum) then 1 else 0) + vacuums acts)%nat.
Proof. unfold vacuums. rewrite filter_cons. by case_decide. Qed.

Lemma vacuums_le acts : (vacuums acts ≤ length acts)%nat.
Proof. apply length_filter. Qed.

(** X8: dirt never comes back.  After any action sequence that can be
    carried out, the dirty set is part of the one before, and it has shrunk
    by exactly the number of Vacuum actions; so an action sequence that
    clears all dirt holds exactly one Vacuum action for each dirty cell of
    the state it starts from, and is at least that long. *)
Theorem dirt_only_shrinks grid s acts s' :
  execute grid s acts = Some s' →
  dirty s' ⊆ dirty s ∧
  size (dirty s) = (vacuums acts + size (dirty s'))%nat ∧
  (dirty s' = ∅ →
   vacuums acts = size (dirty s) ∧ (size (dirty s) ≤ length acts)%nat).
Proof.
  intros Hex.
  assert (dirty s' ⊆ dirty s ∧
          size (dirty s) = (vacuums acts + size (dirty s'))%nat) as [Hsub Hsize].
  { revert s Hex. induction acts as [ | a acts IH ]; intros s.
    - simpl. intros [= <-]. done.
    - simpl. destruct (apply_action grid s a) as [ s1 | ] eqn:Ha; [ | done ].
      intros [Hsub Hsize]%IH. rewrite vacuums_cons.
      apply apply_action_edge, edge_dirty in Ha
        as [ (-> & p & Hp & Hd) | (Hne & Hd) ]; rewrite Hd in *.
      + rewrite decide_True by done. split; [ set_solver | ].
        rewrite size_difference, size_singleton in Hsize by set_solver.
        assert (0 < size (dirty s))%nat; [ | lia ].
        destruct (size (dirty s)) eqn:Hz; [ | lia ].
        apply size_empty_inv in Hz. set_solver.
      + rewrite decide_False by done. done. }
  split_and!; [ done | done | ]. intros Hd.
  rewrite Hd, size_empty in Hsize. pose proof (vacuums_le acts). lia.
Qed.

Lemma dirt_only_shrinks_witness :
  dirty clean_1x3 ⊆ dirty start_1x3 ∧
  size (dirty start_1x3) =
    (vacuums [East; Vacuum] + size (dirty clean_1x3))%nat ∧
  (dirty clean_1x3 = ∅ →
   vacuums [East; Vacuum] = size (dirty start_1x3) ∧
   (size (dirty start_1x3) ≤ length [East; Vacuum])%nat).
Proof.
  apply (dirt_only_shrinks grid_1x3 start_1x3 [East; Vacuum]).
  vm_compute. reflexivity.
Defined.

(** ** Errors of the successor generator *)

Lemma try_move_Raise grid r c d a dr dc e :
  try_move grid r c d (a, (dr, dc)) = Raise e ↔
  e = IndexError ∧ short_row grid (r + dr) (c + dc).
Proof.
  unfold try_move, short_row.
  destruct (Z.leb_spec 0 (r + dr)); simpl;
    [ | split; [ done | intros (_ & ? & _); lia ] ].
  destruct (Z.ltb_spec (r + dr) (Z.of_nat (length grid))); simpl;
    [ | split; [ done | intros (_ & ? & _); lia ] ].
  destruct grid as [ | row0 rest ] eqn:Hg; [ simpl in *; lia | ].
  rewrite <- Hg in *.
  replace (len_row0 grid) with (Ok (Z.of_nat (length row0))) by (by rewrite Hg).
  assert (Hh : head grid = Some row0) by (by rewrite Hg).
  destruct (Z.leb_spec 0 (c + dc)); simpl;
    [ | split; [ done | intros (_ & _ & ? & ? & ? & ? & _) ]; simplify_eq; lia ].
  destruct (Z.ltb_spec (c + dc) (Z.of_nat (length row0))); simpl;
    [ | split; [ done | intros (_ & _ & ? & ? & ? & ? & _) ]; simplify_eq; lia ].
  unfold cell.
  destruct (lookup_lt_is_Some_2 grid (Z.to_nat (r + dr))) as [row Hrow]; [ lia | ].
  rewrite Hrow.
  destruct (row !! Z.to_nat (c + dc)) as [ ch | ] eqn:Hch; simpl.
  - apply lookup_lt_Some in Hch.
    split; [ by case_bool_decide | ].
    intros (_ & _ & ? & row' & ? & ? & ? & ?). simplify_eq. lia.
  - apply lookup_ge_None in Hch. split.
    + intros [= <-]. split; [ done | ]. split; [ lia | ].
      exists row0, row. split_and!; try done; lia.
    + by intros [-> _].
Qed.

Lemma move_loop_Raise grid r c d moves :
  ∀ acc e,
    move_loop grid r c d moves acc = Raise e ↔
    e = IndexError ∧
    ∃ a dr dc, (a, (dr, dc)) ∈ moves ∧ short_row grid (r + dr) (c + dc).
Proof.
  induction moves as [ | [a [dr dc]] moves IH ]; intros acc e.
  - simpl. split; [ done | ]. intros (_ & ? & ? & ? & ?%elem_of_nil & _). done.
  - cbn [move_loop].
    destruct (try_move grid r c d (a, (dr, dc))) as [ new | e' ] eqn:Ht;
      cbn [mbind result_bind].
    + rewrite IH. split; intros (-> & a' & dr' & dc' & Hin & Hs);
        (split; [ done | ]); exists a', dr', dc'; (split; [ | done ]).
      * by apply list_elem_of_further.
      * apply elem_of_cons in Hin as [ [= -> -> ->] | ? ]; [ | done ].
        assert (try_move grid r c d (a, (dr, dc)) = Raise IndexError) as Ht'
          by by apply try_move_Raise.
        congruence.
    + apply try_move_Raise in Ht as [-> Hs]. split.
      * intros [= <-]. split; [ done | ]. exists a, dr, dc.
        split; [ apply list_elem_of_here | done ].
      * by intros [-> _].
Qed.

(** X9: the successor generator raises [TypeError] exactly when the state
    has no position, and [IndexError] exactly when a neighbouring cell that
    passes the bounds tests lies past the end of its own row; it raises
    nothing else, and nothing on a rectangular grid with a position. *)
Theorem get_neighbors_raises state grid e :
  (get_neighbors state grid = Raise e ↔
   (position state = None ∧ e = TypeError) ∨
   (e = IndexError ∧
    ∃ r c a dr dc, position state = Some (r, c) ∧ (a, (dr, dc)) ∈ MOVES ∧
                   short_row grid (r + dr) (c + dc))) ∧
  (rectangular grid → ∀ nr nc, ¬ short_row grid nr nc).
Proof.
  split.
  - unfold get_neighbors. destruct (position state) as [ [r c] | ].
    + destruct (move_loop grid r c (dirty state) MOVES []) as [ nbrs | e' ] eqn:Hm;
        cbn [mbind result_bind].
      * split.
        -- by case_bool_decide.
        -- intros [ [? _] | (-> & r' & c' & a & dr & dc & [= <- <-] & Hin & Hs) ];
             [ done | ].
           assert (move_loop grid r c (dirty state) MOVES [] = Raise IndexError)
             as Hm' by (apply move_loop_Raise; eauto 10).
           congruence.
      * apply move_loop_Raise in Hm as (-> & a & dr & dc & Hin & Hs). split.
        -- intros [= <-]. right. split; [ done | ]. by exists r, c, a, dr, dc.
        -- intros [ [? _] | [-> _] ]; done.
    + split.
      * intros [= <-]. by left.
      * intros [ [_ ->] | (_ & ? & ? & ? & ? & ? & ? & _) ]; done.
  - intros Hrect nr nc (Hr & row0 & row & Hh & Hc & Hrow & Hlen).
    assert (length row = length row0); [ | lia ].
    apply Hrect; [ done | by eapply list_elem_of_lookup_2 ].
Qed.

Lemma get_neighbors_raises_witness :
  get_neighbors (mkState (Some (0, 1)) ∅) grid_ragged = Raise IndexError.
Proof.
  apply (get_neighbors_raises (mkState (Some (0, 1)) ∅) grid_ragged IndexError).
  right. split; [ reflexivity | ]. exists 0, 1, South, 1, 0.
  split_and!; [ reflexivity | apply elem_of_MOVES; auto | ].
  split; [ simpl; lia | ]. exists [ch_under; 46%N], [46%N].
  split_and!; try reflexivity; simpl; lia.
Defined.

(** ** The parsed world *)

Lemma elem_of_marks_in_line mark r line :
  ∀ c0 r' c',
    (r', c') ∈ marks_in_line mark r c0 line ↔
    r' = r ∧ c0 ≤ c' ∧ line !! Z.to_nat (c' - c0) = Some mark.
Proof.
  induction line as [ | ch line IH ]; intros c0 r' c'.
  - simpl. rewrite elem_of_nil. naive_solver.
  - cbn [marks_in_line]. rewrite elem_of_app, IH.
    destruct (Z.eq_dec c' c0) as [ -> | Hne ].
    + replace (Z.to_nat (c0 - c0)) with 0%nat by lia. simpl.
      destruct (N.eqb_spec ch mark) as [ -> | ? ].
      * rewrite list_elem_of_singleton. split; [ | naive_solver ].
        intros [ [= ->] | (-> & ? & _) ]; [ | lia ]. split_and!; [ done | lia | done ].
      * rewrite elem_of_nil. split; [ | naive_solver ].
        intros [ [] | (_ & ? & _) ]. lia.
    + split.
      * intros [ Hin | (-> & ? & Hl) ].
        { destruct (ch =? mark)%N; [ | by apply elem_of_nil in Hin ].
          apply list_elem_of_singleton in Hin. congruence. }
        split_and!; [ done | lia | ].
        replace (Z.to_nat (c' - c0)) with (S (Z.to_nat (c' - (c0 + 1)))) by lia.
        done.
      * intros (-> & ? & Hl). right. split_and!; [ done | lia | ].
        replace (Z.to_nat (c' - c0)) with (S (Z.to_nat (c' - (c0 + 1)))) in Hl by lia.
        done.
Qed.

Lemma elem_of_marks mark lines :
  ∀ r0 r' c',
    (r', c') ∈ marks mark r0 lines ↔
    r0 ≤ r' ∧ 0 ≤ c' ∧
    ∃ line, lines !! Z.to_nat (r' - r0) = Some line ∧
            line !! Z.to_nat c' = Some mark.
Proof.
  induction lines as [ | line lines IH ]; intros r0 r' c'.
  - simpl. rewrite elem_of_nil. naive_solver.
  - cbn [marks]. rewrite elem_of_app, IH, elem_of_marks_in_line.
    replace (c' - 0) with c' by lia.
    destruct (Z.eq_dec r' r0) as [ -> | Hne ].
    + replace (Z.to_nat (r0 - r0)) with 0%nat by lia. simpl. split.
      * intros [ (_ & ? & ?) | (? & _) ]; [ | lia ].
        split_and!; [ lia | done | by exists line ].
      * intros (_ & ? & line' & [= <-] & ?). by left.
    + split.
      * intros [ (? & _) | (? & ? & line' & Hl & ?) ]; [ done | ].
        split_and!; [ lia | done | ]. exists line'. split; [ | done ].
        replace (Z.to_nat (r' - r0)) with (S (Z.to_nat (r' - (r0 + 1)))) by lia.
        done.
      * intros (? & ? & line' & Hl & ?). right. split_and!; [ lia | done | ].
        exists line'. split; [ | done ].
        replace (Z.to_nat (r' - r0)) with (S (Z.to_nat (r' - (r0 + 1)))) in Hl by lia.
        done.
Qed.

Lemma cell_rendered lines r c ch :
  cell (map (map render) lines) r c = Ok ch ↔
  ∃ line x, lines !! Z.to_nat r = Some line ∧ line !! Z.to_nat c = Some x ∧
            render x = ch.
Proof.
  unfold cell.
  change (map (map render) lines) with (map render <$> lines).
  rewrite list_lookup_fmap.
  destruct (lines !! Z.to_nat r) as [ line | ]; simpl;
    [ | split; [ done | by intros (? & ? & ? & _) ] ].
  change (map render line) with (render <$> line). rewrite list_lookup_fmap.
  destruct (line !! Z.to_nat c) as [ x | ] eqn:Hx; simpl.
  - split.
    + intros [= <-]. by exists line, x.
    + intros (? & ? & [= <-] & ? & <-). congruence.
  - split; [ done | ]. intros (? & ? & [= <-] & ? & _). congruence.
Qed.

Lemma render_star x : render x = ch_star ↔ x = ch_star.
Proof.
  unfold render. destruct (N.eqb_spec x ch_at) as [ -> | ]; [ | done ].
  split; [ done | by intros [=] ].
Qed.

(** X10: the world that [parse_world] returns is consistent: the start
    position, when there is one, is a cell of the grid that holds ['_'], and
    the dirty set is exactly the set of cells of the grid that hold ['*'];
    so neither the start nor a dirty cell is a wall. *)
Theorem parsed_world_is_consistent file grid start d :
  parse_world file = Ok (grid, start, d) →
  (∀ r c, start = Some (r, c) →
     0 ≤ r ∧ 0 ≤ c ∧ cell grid r c = Ok ch_under) ∧
  (∀ r c, (r, c) ∈ d ↔ 0 ≤ r ∧ 0 ≤ c ∧ cell grid r c = Ok ch_star).
Proof.
  destruct file as [ raw | ]; [ | done ]. rewrite parse_world_spec.
  destruct (declared_cols raw) as [ cols | ]; [ | done ].
  destruct (declared_rows raw) as [ rows | ]; [ | done ].
  cbn. intros [= <- <- <-]. split.
  - intros r c Hlast. apply last_Some in Hlast as [earlier Hm].
    assert ((r, c) ∈ marks ch_at 0 (body_lines (Z.to_nat rows) (world_body raw)))
      as Hin.
    { rewrite Hm. apply elem_of_app. right. by apply list_elem_of_singleton. }
    apply elem_of_marks in Hin as (? & ? & line & Hl & Hc).
    replace (r - 0) with r in Hl by lia.
    split_and!; [ done | done | ]. apply cell_rendered. by exists line, ch_at.
  - intros r c. rewrite elem_of_list_to_set, elem_of_marks, cell_rendered.
    replace (r - 0) with r by lia. setoid_rewrite render_star. naive_solver.
Qed.

Lemma parsed_world_is_consistent_witness :
  (∀ r c, Some (0, 0) = Some (r, c) →
     0 ≤ r ∧ 0 ≤ c ∧ cell grid_1x3 r c = Ok ch_under) ∧
  (∀ r c, (r, c) ∈ dirty start_1x3 ↔
          0 ≤ r ∧ 0 ≤ c ∧ cell grid_1x3 r c = Ok ch_star).
Proof.
  apply (parsed_world_is_consistent (Ok file_1x3) grid_1x3 (Some (0, 0))
           (dirty start_1x3)).
  vm_compute. reflexivity.
Defined.

(** ** The planner as a whole *)

Lemma main_three fuel ident fs prog algorithm file_path :
  main fuel ident fs [prog; algorithm; file_path] =
  match parse_world (fs file_path) with
  | Raise _ => Some ([], 1)
  | Ok (grid, start_pos, d) =>
      if decide (algorithm = "depth-first"%string) then
        finish (dfs fuel (mkState start_pos d) grid)
      else if decide (algorithm = "uniform-cost"%string) then
        finish (ucs ident fuel (mkState start_pos d) grid)
      else Some ([("Unknown algorithm: " ++ algorithm)%string], 1)
  end.
Proof. reflexivity. Qed.

Lemma main_usage fuel ident fs argv :
  length argv ≠ 3%nat → main fuel ident fs argv = Some ([usage], 1).
Proof. by destruct argv as [ | ? [ | ? [ | ? [ | ? ? ] ] ] ]. Qed.

Lemma finish_zero res out :
  finish res = Some (out, 0) →
  (res = Exhausted ∧ out = []) ∨
  ∃ path g e, res = Solved path g e ∧ out = report path g e.
Proof.
  destruct res as [ path g e | | e | ]; simpl; intros [= <-]; [ right | by left ].
  by exists path, g, e.
Qed.

(** X11: whatever the planner prints with exit status 0 is sound.  It was
    given three arguments, a file that parses and one of the two algorithm
    names, and either it printed nothing and no action sequence clears all
    dirt of the parsed world, or it printed the labels of an action sequence
    that clears all dirt, followed by the two counter lines; with
    [uniform-cost] no action sequence that clears all dirt is shorter. *)
Theorem planner_output_is_a_plan fuel ident fs argv out :
  main fuel ident fs argv = Some (out, 0) →
  ∃ prog algorithm file_path grid start_pos d,
    argv = [prog; algorithm; file_path] ∧
    parse_world (fs file_path) = Ok (grid, start_pos, d) ∧
    (algorithm = "depth-first"%string ∨ algorithm = "uniform-cost"%string) ∧
    ((out = [] ∧
      ∀ acts, ¬ clears_all_dirt grid (mkState start_pos d) acts) ∨
     ∃ path generated expanded,
       out = report path generated expanded ∧
       clears_all_dirt grid (mkState start_pos d) path ∧
       (algorithm = "uniform-cost"%string →
        ∀ acts, clears_all_dirt grid (mkState start_pos d) acts →
                (length path ≤ length acts)%nat)).
Proof.
  destruct (decide (length argv = 3%nat)) as [ Hlen | Hlen ];
    [ | rewrite (main_usage _ _ _ _ Hlen); intros [=] ].
  destruct argv as [ | prog [ | algorithm [ | file_path [ | ? ? ] ] ] ]; try done.
  rewrite main_three.
  destruct (parse_world (fs file_path)) as [ [[grid start_pos] d] | ] eqn:Hp;
    [ | done ].
  intros Hm. exists prog, algorithm, file_path, grid, start_pos, d.
  split; [ done | ]. split; [ done | ].
  case_decide as Hd; [ | case_decide as Hu; [ | done ] ].
  - split; [ by left | ].
    pose proof (dfs_correct grid (mkState start_pos d) fuel) as H.
    apply finish_zero in Hm as [ [Hr ->] | (path & g & e & Hr & ->) ];
      rewrite Hr in H.
    + by left.
    + right. exists path, g, e. split_and!; [ done | by destruct H | ].
      intros ->. done.
  - split; [ by right | ].
    pose proof (ucs_correct_any_fuel ident grid (mkState start_pos d) fuel) as H.
    apply finish_zero in Hm as [ [Hr ->] | (path & g & e & Hr & ->) ];
      rewrite Hr in H.
    + by left.
    + right. exists path, g, e. split_and!; [ done | by destruct H | ].
      intros _. by destruct H.
Qed.

Lemma planner_output_is_a_plan_witness :
  ∃ prog algorithm file_path grid start_pos d,
    ["planner.py"; "depth-first"; "world.txt"]%string =
      [prog; algorithm; file_path] ∧
    parse_world ((fun _ => Ok file_1x3) file_path) = Ok (grid, start_pos, d) ∧
    (algorithm = "depth-first"%string ∨ algorithm = "uniform-cost"%string) ∧
    ((report [East; Vacuum] 2 3 = [] ∧
      ∀ acts, ¬ clears_all_dirt grid (mkState start_pos d) acts) ∨
     ∃ path generated expanded,
       report [East; Vacuum] 2 3 = report path generated expanded ∧
       clears_all_dirt grid (mkState start_pos d) path ∧
       (algorithm = "uniform-cost"%string →
        ∀ acts, clears_all_dirt grid (mkState start_pos d) acts →
                (length path ≤ length acts)%nat)).
Proof.
  apply (planner_output_is_a_plan 3 Z.of_nat (fun _ => Ok file_1x3)
           ["planner.py"; "depth-first"; "world.txt"]%string
           (report [East; Vacuum] 2 3)).
  vm_compute. reflexivity.
Defined.

(** X12: the planner exits with a status other than 0 only in these ways,
    always with status 1: with the usage line, exactly when it was not given
    three arguments; with no output when the parser raised, whatever the
    algorithm name; with the unknown-algorithm line, only after the file was
    parsed; with no output when the search raised. *)
Theorem planner_failures fuel ident fs argv :
  (length argv ≠ 3%nat ↔ main fuel ident fs argv = Some ([usage], 1)) ∧
  ∀ out status,
    main fuel ident fs argv = Some (out, status) → status ≠ 0 →
    status = 1 ∧
    (length argv ≠ 3%nat ∨
     ∃ prog algorithm file_path,
       argv = [prog; algorithm; file_path] ∧
       ((out = [] ∧ ∃ e, parse_world (fs file_path) = Raise e) ∨
        ∃ grid start_pos d,
          parse_world (fs file_path) = Ok (grid, start_pos, d) ∧
          ((out = [("Unknown algorithm: " ++ algorithm)%string] ∧
            algorithm ≠ "depth-first"%string ∧
            algorithm ≠ "uniform-cost"%string) ∨
           (out = [] ∧ algorithm = "depth-first"%string ∧
            ∃ e, dfs fuel (mkState start_pos d) grid = Raised e) ∨
           (out = [] ∧ algorithm = "uniform-cost"%string ∧
            ∃ e, ucs ident fuel (mkState start_pos d) grid = Raised e)))).
Proof.
  split.
  - split; [ apply main_usage | ].
    destruct argv as [ | prog [ | algorithm [ | file_path [ | ? ? ] ] ] ]; try done.
    rewrite main_three.
    destruct (parse_world (fs file_path)) as [ [[grid start_pos] d] | ]; [ | done ].
    repeat case_decide; try done;
      match goal with |- finish ?r = _ → _ => by destruct r end.
  - intros out status Hm Hs.
    destruct (decide (length argv = 3%nat)) as [ Hlen | Hlen ];
      [ | rewrite (main_usage _ _ _ _ Hlen) in Hm; injection Hm as <- <-;
          split; [ done | by left ] ].
    destruct argv as [ | prog [ | algorithm [ | file_path [ | ? ? ] ] ] ]; try done.
    rewrite main_three in Hm.
    destruct (parse_world (fs file_path)) as [ [[grid start_pos] d] | e ] eqn:Hp.
    + assert (∀ res, finish res = Some (out, status) →
                     status = 1 ∧ out = [] ∧ ∃ e, res = Raised e) as Hfin.
      { intros [ | | e | ]; simpl; intros [= <- <-]; try done. eauto. }
      case_decide as Hd; [ | case_decide as Hu ].
      * apply Hfin in Hm as (-> & -> & He). split; [ done | right ].
        exists prog, algorithm, file_path. split; [ done | right ].
        exists grid, start_pos, d. split; [ done | ]. right. left. done.
      * apply Hfin in Hm as (-> & -> & He). split; [ done | right ].
        exists prog, algorithm, file_path. split; [ done | right ].
        exists grid, start_pos, d. split; [ done | ]. right. right. done.
      * injection Hm as <- <-. split; [ done | right ].
        exists prog, algorithm, file_path. split; [ done | right ].
        exists grid, start_pos, d. split; [ done | ]. left. done.
    + injection Hm as <- <-. split; [ done | right ].
      exists prog, algorithm, file_path. split; [ done | left ]. eauto.
Qed.

Lemma planner_failures_witness :
  1 = 1 ∧
  (length ["planner.py"; "breadth-first"; "world.txt"]%string ≠ 3%nat ∨
   ∃ prog algorithm file_path,
     ["planner.py"; "breadth-first"; "world.txt"]%string =
       [prog; algorithm; file_path] ∧
     (([("Unknown algorithm: breadth-first")%string] = [] ∧
       ∃ e, parse_world ((fun _ => Ok file_1x3) file_path) = Raise e) ∨
      ∃ grid start_pos d,
        parse_world ((fun _ => Ok file_1x3) file_path) = Ok (grid, start_pos, d) ∧
        (([("Unknown algorithm: breadth-first")%string] =
            [("Unknown algorithm: " ++ algorithm)%string] ∧
          algorithm ≠ "depth-first"%string ∧
          algorithm ≠ "uniform-cost"%string) ∨
         ([("Unknown algorithm: breadth-first")%string] = [] ∧
          algorithm = "depth-first"%string ∧
          ∃ e, dfs 3 (mkState start_pos d) grid = Raised e) ∨
         ([("Unknown algorithm: breadth-first")%string] = [] ∧
          algorithm = "uniform-cost"%string ∧
          ∃ e, ucs Z.of_nat 3 (mkState start_pos d) grid = Raised e)))).
Proof.
  apply (planner_failures 3 Z.of_nat (fun _ => Ok file_1x3)
           ["planner.py"; "breadth-first"; "world.txt"]%string).
  - vm_compute. reflexivity.
  - discriminate.
Defined.

(** X13: given one of the two algorithm names and a file that parses to a
    rectangular grid with an agent marker, the planner ends with exit
    status 0. *)
Theorem planner_succeeds_on_well_formed_worlds ident fs prog algorithm
    file_path grid p d :
  parse_world (fs file_path) = Ok (grid, Some p, d) →
  rectangular grid →
  algorithm = "depth-first"%string ∨ algorithm = "uniform-cost"%string →
  ∃ n, ∀ fuel, (n ≤ fuel)%nat →
    ∃ out, main fuel ident fs [prog; algorithm; file_path] = Some (out, 0).
Proof.
  intros Hp Hrect Ha. exists (enough_fuel grid (mkState (Some p) d)).
  intros fuel Hf. rewrite main_three, Hp.
  assert (∀ res, ended res → ∃ out, finish res = Some (out, 0)) as Hfin.
  { intros res [ -> | (? & ? & ? & ->) ]; by eexists. }
  destruct Ha as [ -> | -> ].
  - rewrite decide_True by done. apply Hfin.
    by apply dfs_terminates.
  - rewrite decide_False by done. rewrite decide_True by done. apply Hfin.
    by apply ucs_terminates.
Qed.

Lemma planner_succeeds_on_well_formed_worlds_witness :
  ∃ n, ∀ fuel, (n ≤ fuel)%nat →
    ∃ out, main fuel Z.of_nat (fun _ => Ok file_1x3)
             ["planner.py"; "depth-first"; "world.txt"]%string = Some (out, 0).
Proof.
  apply (planner_succeeds_on_well_formed_worlds Z.of_nat (fun _ => Ok file_1x3)
           "planner.py" "depth-first" "world.txt" grid_1x3 (0, 0) {[ (0, 1) ]}).
  - vm_compute. reflexivity.
  - intros row0 row [= <-] ->%list_elem_of_singleton. reflexivity.
  - left. reflexivity.
Defined.

(** X14: the declared column count has no effect on the parsed world: two
    files whose first line is an integer literal that [int] accepts, of at
    most [int_max_str_digits] digits, and that agree after the first line
    parse to the same grid, start position and dirty set. *)
Theorem parse_world_ignores_cols raw1 raw2 cols1 cols2 :
  declared_cols raw1 = Ok cols1 → declared_cols raw2 = Ok cols2 →
  (readline (utf_8_sig raw1)).2 = (readline (utf_8_sig raw2)).2 →
  parse_world (Ok raw1) = parse_world (Ok raw2).
Proof.
  intros H1 H2 Hrest. rewrite !parse_world_spec, H1, H2.
  unfold declared_rows, world_body. by rewrite Hrest.
Qed.

Lemma parse_world_ignores_cols_witness :
  parse_world (Ok file_1x3) =
  parse_world (Ok (text_of_string "5" ++ [nl] ++ text_of_string "1" ++ [nl] ++
                   text_of_string "@*#" ++ [nl])).
Proof.
  apply (parse_world_ignores_cols file_1x3 _ 3 5); vm_compute; reflexivity.
Defined.

(** ** The agent marker *)

Lemma marks_in_line_last mark r line :
  ∀ c0 p q,
    last (marks_in_line mark r c0 line) = Some p →
    q ∈ marks_in_line mark r c0 line → reading_le q p.
Proof.
  induction line as [ | ch line IH ]; intros c0 p q; [ done | ].
  cbn [marks_in_line]. rewrite last_app, elem_of_app.
  destruct (last (marks_in_line mark r (c0 + 1) line)) as [ p' | ] eqn:Hl.
  - intros [= <-] [ Hq | Hq ]; [ | by eapply IH ].
    apply last_Some_elem_of in Hl. destruct p' as [ r' c' ].
    apply elem_of_marks_in_line in Hl as (-> & ? & _).
    destruct (ch =? mark)%N; [ | by apply elem_of_nil in Hq ].
    apply list_elem_of_singleton in Hq as ->. right. simpl. lia.
  - apply last_None in Hl. rewrite Hl.
    destruct (ch =? mark)%N; [ | done ].
    intros [= <-] [ Hq | Hq ]; [ | by apply elem_of_nil in Hq ].
    apply list_elem_of_singleton in Hq as ->. right. simpl. lia.
Qed.

Lemma marks_last mark lines :
  ∀ r0 p q,
    last (marks mark r0 lines) = Some p →
    q ∈ marks mark r0 lines → reading_le q p.
Proof.
  induction lines as [ | line lines IH ]; intros r0 p q; [ done | ].
  cbn [marks]. rewrite last_app, elem_of_app.
  destruct (last (marks mark (r0 + 1) lines)) as [ p' | ] eqn:Hl.
  - intros [= <-] [ Hq | Hq ]; [ | by eapply IH ].
    apply last_Some_elem_of in Hl. destruct p' as [ r' c' ], q as [ r c ].
    apply elem_of_marks in Hl as (? & _).
    apply elem_of_marks_in_line in Hq as (-> & _). left. simpl. lia.
  - apply last_None in Hl. rewrite Hl.
    intros Hp [ Hq | Hq ]; [ | by apply elem_of_nil in Hq ].
    by eapply marks_in_line_last.
Qed.

Lemma marked_marks lines mark p :
  marked lines mark p ↔ p ∈ marks mark 0 lines.
Proof.
  destruct p as [ r c ]. rewrite elem_of_marks. unfold marked. simpl.
  by replace (r - 0) with r by lia.
Qed.

Lemma reading_le_antisym p q : reading_le p q → reading_le q p → p = q.
Proof.
  destruct p, q. unfold reading_le. simpl.
  intros [ ? | [ ? ? ] ] [ ? | [ ? ? ] ]; f_equal; lia.
Qed.

Lemma last_mark lines mark :
  (∀ p, last (marks mark 0 lines) = Some p ↔
        marked lines mark p ∧ ∀ q, marked lines mark q → reading_le q p) ∧
  (last (marks mark 0 lines) = None ↔ ∀ q, ¬ marked lines mark q).
Proof.
  split.
  - intros p. split.
    + intros Hl. split.
      * apply marked_marks. by apply last_Some_elem_of.
      * intros q Hq%marked_marks. by eapply marks_last.
    + intros [ Hp Hmax ].
      destruct (last (marks mark 0 lines)) as [ p' | ] eqn:Hl.
      * f_equal. apply reading_le_antisym.
        -- apply Hmax, marked_marks. by apply last_Some_elem_of.
        -- eapply marks_last; [ done | ]. by apply marked_marks.
      * apply last_None in Hl. apply marked_marks in Hp.
        rewrite Hl in Hp. by apply elem_of_nil in Hp.
  - rewrite last_None. split.
    + intros Hl q Hq%marked_marks. rewrite Hl in Hq. by apply elem_of_nil in Hq.
    + intros Hno. destruct (marks mark 0 lines) as [ | p l ] eqn:Hm; [ done | ].
      destruct (Hno p). apply marked_marks. rewrite Hm. left.
Qed.

Lemma no_position_search fuel ident d grid :
  (0 < fuel)%nat →
  (d ≠ ∅ →
   dfs fuel (mkState None d) grid = Raised TypeError ∧
   ucs ident fuel (mkState None d) grid = Raised TypeError) ∧
  (d = ∅ →
   dfs fuel (mkState None d) grid = Solved [] 0 1 ∧
   ucs ident fuel (mkState None d) grid = Solved [] 0 1).
Proof.
  intros Hf. destruct fuel as [ | fuel ]; [ lia | ]. split.
  - intros Hd. split.
    + unfold dfs. cbn [dfs_loop]. rewrite decide_False by set_solver.
      by rewrite decide_False.
    + unfold ucs. cbn [ucs_loop heappop heap]. by rewrite decide_False.
  - intros ->. split.
    + unfold dfs. cbn [dfs_loop]. rewrite decide_False by set_solver.
      rewrite decide_True by done. done.
    + unfold ucs. cbn [ucs_loop heappop heap]. rewrite decide_True by done.
      unfold reconstruct_path.
      cbn [reconstruct_loop came_from mbind option_bind].
      by rewrite lookup_singleton_eq.
Qed.

(** C10 as stated fails: a world file with neither an agent nor dirt parses
    to a start position of [None], and both searches succeed on it at once:
    the planner prints the two counter lines and exits with status 0. *)
Lemma no_agent_no_dirt_succeeds :
  parse_world (Ok file_no_agent) = Ok ([[ch_under]], None, ∅) ∧
  dfs 1 (mkState None ∅) [[ch_under]] = Solved [] 0 1 ∧
  ucs Z.of_nat 1 (mkState None ∅) [[ch_under]] = Solved [] 0 1 ∧
  main 1 Z.of_nat (fun _ => Ok file_no_agent)
       ["planner.py"; "depth-first"; "world.txt"]%string =
    Some (["0 nodes generated"; "1 nodes expanded"]%string, 0) ∧
  main 1 Z.of_nat (fun _ => Ok file_no_agent)
       ["planner.py"; "uniform-cost"; "world.txt"]%string =
    Some (["0 nodes generated"; "1 nodes expanded"]%string, 0).
Proof. split_and!; vm_compute; reflexivity. Qed.

(** C10, as the code has it: when both header lines are integers, the parser
    returns as start position the last agent marker of the grid lines in
    reading order, and [None] when they hold none.  On a state without
    position the successor generator raises [TypeError]; a search started
    there fails with it, and the process ends with status 1 and no output,
    when there is dirt to clean; with no dirt the goal test comes first and
    the search succeeds with the empty plan. *)
Theorem agent_marker_policy raw cols rows :
  declared_cols raw = Ok cols →
  declared_rows raw = Ok rows →
  let lines := body_lines (Z.to_nat rows) (world_body raw) in
  let grid := map (map render) lines in
  let d : gset Pos := list_to_set (marks ch_star 0 lines) in
  let start := last (marks ch_at 0 lines) in
  parse_world (Ok raw) = Ok (grid, start, d) ∧
  (∀ p, start = Some p ↔
        marked lines ch_at p ∧
        ∀ q, marked lines ch_at q → reading_le q p) ∧
  (start = None ↔ ∀ q, ¬ marked lines ch_at q) ∧
  (start = None →
   get_neighbors (mkState start d) grid = Raise TypeError ∧
   ∀ fuel ident fs prog file_path,
     (0 < fuel)%nat → fs file_path = Ok raw →
     (d ≠ ∅ →
      dfs fuel (mkState start d) grid = Raised TypeError ∧
      ucs ident fuel (mkState start d) grid = Raised TypeError ∧
      main fuel ident fs [prog; "depth-first"; file_path]%string =
        Some ([], 1) ∧
      main fuel ident fs [prog; "uniform-cost"; file_path]%string =
        Some ([], 1)) ∧
     (d = ∅ →
      dfs fuel (mkState start d) grid = Solved [] 0 1 ∧
      ucs ident fuel (mkState start d) grid = Solved [] 0 1 ∧
      main fuel ident fs [prog; "depth-first"; file_path]%string =
        Some (["0 nodes generated"; "1 nodes expanded"]%string, 0) ∧
      main fuel ident fs [prog; "uniform-cost"; file_path]%string =
        Some (["0 nodes generated"; "1 nodes expanded"]%string, 0))).
Proof.
  intros Hc Hr lines grid d start.
  assert (parse_world (Ok raw) = Ok (grid, start, d)) as Hp.
  { rewrite parse_world_spec, Hc, Hr. done. }
  destruct (last_mark lines ch_at) as [ Hsome Hnone ].
  split_and!; [ done | done | done | ].
  intros Hn. rewrite Hn in Hp |- *. split; [ done | ].
  intros fuel ident fs prog file_path Hf Hfs.
  destruct (no_position_search fuel ident d grid Hf) as [ Hdirt Hclean ].
  split.
  - intros Hd. destruct (Hdirt Hd) as [ Hdfs Hucs ].
    split_and!; [ done | done | | ].
    + unfold main. rewrite Hfs, Hp. cbn beta iota zeta.
      rewrite decide_True by done. by rewrite Hdfs.
    + unfold main. rewrite Hfs, Hp. cbn beta iota zeta.
      rewrite decide_False by done. rewrite decide_True by done.
      by rewrite Hucs.
  - intros Hd. destruct (Hclean Hd) as [ Hdfs Hucs ].
    split_and!; [ done | done | | ].
    + unfold main. rewrite Hfs, Hp. cbn beta iota zeta.
      rewrite decide_True by done. by rewrite Hdfs.
    + unfold main. rewrite Hfs, Hp. cbn beta iota zeta.
      rewrite decide_False by done. rewrite decide_True by done.
      by rewrite Hucs.
Qed.

Lemma agent_marker_policy_witness :
  parse_world (Ok file_two_agents) =
    Ok ([[ch_under; ch_star; ch_under]], Some (0, 2), {[ (0, 1) ]}) ∧
  main 1 Z.of_nat (fun _ => Ok file_dirt_only)
       ["planner.py"; "depth-first"; "world.txt"]%string = Some ([], 1).
Proof.
  split.
  - destruct (agent_marker_policy file_two_agents 3 1) as [ Hp _ ].
    + vm_compute. reflexivity.
    + vm_compute. reflexivity.
    + rewrite Hp. vm_compute. reflexivity.
  - destruct (agent_marker_policy file_dirt_only 1 1) as (_ & _ & _ & Hs).
    + vm_compute. reflexivity.
    + vm_compute. reflexivity.
    + destruct Hs as [ _ Hs ]; [ vm_compute; reflexivity | ].
      destruct (Hs 1%nat Z.of_nat (fun _ => Ok file_dirt_only)
                  "planner.py"%string "world.txt"%string) as [ Hd _ ].
      * lia.
      * reflexivity.
      * apply Hd. vm_compute. discriminate.
Defined.
